(** * A model of [generate_channel_txn_multithreaded_progress.py]

    The script fills a MySQL table with synthetic rows from a pool of worker
    threads.  This development embeds the parts that carry logic:

    - the coordinator's partition of the record indices ([main]),
    - the payload generator ([generate_msg]),
    - the worker loop ([insert_worker]), read sequentially,
    - the shared progress counter guarded by [progress_lock], read as an
      interleaving semantics over the threads of the pool.

    Python integers are [Z].  The integer true division of line 179 is
    modelled in binary64, rounding and overflow included.  The snapshot
    the workers print carries percent, rate and eta as the exact
    rationals [Q] the doubles of lines 155-159 approximate, with the
    guards and the divisions that can raise [ZeroDivisionError] as
    written; [binary64_snapshot] is the same computation in the
    arithmetic of the interpreter, and what is proved of the printed
    values is proved of both.  External collaborators (Faker providers,
    [json.dumps], [uuid.uuid4], [random.uniform], [round]) are the fields
    of a [Library] record.  The database is the list of committed
    batches. *)

From Stdlib Require Import ZArith QArith Qabs Lia String Ascii List PrimFloat.
From stdpp Require Import base tactics option list.

Local Open Scope Z_scope.

(* ===================================================================== *)
(** * Python values and errors *)
(* ===================================================================== *)

(** The exceptions the modelled code can raise by itself. *)
Inductive PyError : Type :=
| ZeroDivisionError
| OverflowError
| ValueError.

Inductive result (A : Type) : Type :=
| Ok (a : A)
| Raise (e : PyError).

Arguments Ok {A} a.
Arguments Raise {A} e.

Definition rbind {A B : Type} (m : result A) (k : A -> result B) : result B :=
  match m with
  | Ok a => k a
  | Raise e => Raise e
  end.

Notation "'let!' x ':=' m 'in' k" := (rbind m (fun x => k))
  (at level 10, x name, m at level 100, k at level 200, only parsing).

(** The exact ceiling of [a / b], used to state what the code computes
    where its floating-point arithmetic is exact. *)
Definition ceil_div (a b : Z) : Z := - ((- a) / b).

(** *** Integer true division in binary64

    [a / b] on Python integers is the binary64 number nearest to the exact
    quotient, ties going to the even mantissa; it raises
    [ZeroDivisionError] for [b = 0] and [OverflowError] when the rounded
    quotient does not fit a double.  A finite positive double is kept as
    a pair [(m, e)] standing for [m * 2^e]. *)

(** Nearest integer to [num / den], ties to even ([num >= 0], [den > 0]). *)
Definition round_half_even (num den : Z) : Z :=
  let q := num / den in
  let r := num mod den in
  if 2 * r <? den then q
  else if den <? 2 * r then q + 1
  else if Z.even q then q else q + 1.

(** The integer [L] with [2^L <= a / b < 2^(L+1)], for positive [a], [b]. *)
Definition quotient_exponent (a b : Z) : Z :=
  let d := Z.log2 a - Z.log2 b in
  if b * 2 ^ Z.max 0 d <=? a * 2 ^ Z.max 0 (- d) then d else d - 1.

(** [a / b] for positive [a], [b]: 53 significant bits, exponent no
    lower than that of the subnormals, overflow from [2^1024] on. *)
Definition binary64_div (a b : Z) : result (Z * Z) :=
  let e := Z.max (quotient_exponent a b - 52) (-1074) in
  let m := round_half_even (a * 2 ^ Z.max 0 (- e)) (b * 2 ^ Z.max 0 e) in
  if 2 ^ 1024 <=? m * 2 ^ Z.max 0 e then Raise OverflowError else Ok (m, e).

(** [math.ceil(a / b)] for integers [a], [b] (line 179): the quotient is
    rounded to a double first, then the ceiling of that double is taken.
    A negative quotient has the magnitude rounded the same way. *)
Definition math_ceil_truediv (a b : Z) : result Z :=
  if b =? 0 then Raise ZeroDivisionError
  else if a =? 0 then Ok 0
  else
    let! me := binary64_div (Z.abs a) (Z.abs b) in
    let value := fst me * 2 ^ Z.max 0 (snd me) in
    let scale := 2 ^ Z.max 0 (- snd me) in
    if 0 <? a * b then Ok (ceil_div value scale) else Ok (- (value / scale)).

(** [range(n)]: empty when [n <= 0]. *)
Definition py_range (n : Z) : list Z := Z.of_nat <$> seq 0 (Z.to_nat n).

(** [len(l)] as a Python integer. *)
Definition len {A : Type} (l : list A) : Z := Z.of_nat (length l).

(** [a / b] on numbers, raising on a zero divisor. *)
Definition truediv (a b : Q) : result Q :=
  if Qeq_bool b 0 then Raise ZeroDivisionError else Ok (a / b)%Q.

(** [x > 0] on numbers. *)
Definition Qpositive (x : Q) : bool := negb (Qle_bool x 0).

(** *** Floating-point values of lines 155-159

    A double is a finite value, kept as the rational it denotes (the sign
    of a zero is not kept), an infinity or a NaN.  Float operations round
    the exact result to the nearest double and do not raise on overflow;
    an int operand is converted first, which raises [OverflowError] when
    it does not fit. *)
Inductive Double : Type :=
| Finite (q : Q)
| Infinite (negative : bool)
| NotANumber.

(** [m * 2^e] as a rational. *)
Definition dyadic (m e : Z) : Q :=
  if 0 <=? e then inject_Z (m * 2 ^ e) else m # Z.to_pos (2 ^ (- e)).

(** The double nearest to a rational, an infinity beyond the largest. *)
Definition round_binary64 (q : Q) : Double :=
  if Qnum q =? 0 then Finite 0
  else
    match binary64_div (Z.abs (Qnum q)) (Zpos (Qden q)) with
    | Ok (m, e) => Finite (if Qnum q <? 0 then - dyadic m e else dyadic m e)
    | Raise _ => Infinite (Qnum q <? 0)
    end.

(** [a / b] on two ints. *)
Definition int_truediv (a b : Z) : result Double :=
  if b =? 0 then Raise ZeroDivisionError
  else if a =? 0 then Ok (Finite 0)
  else
    let! me := binary64_div (Z.abs a) (Z.abs b) in
    Ok (Finite (if 0 <? a * b then dyadic (fst me) (snd me)
                else - dyadic (fst me) (snd me))).


Definition Qnegative (x : Q) : bool := Qnum x <? 0.

Definition Qzero (x : Q) : bool := Qnum x =? 0.

(** [x * y] on floats. *)
Definition float_mul (x y : Double) : Double :=
  match x, y with
  | Finite a, Finite b => round_binary64 (a * b)
  | Finite a, Infinite s | Infinite s, Finite a =>
      if Qzero a then NotANumber else Infinite (xorb s (Qnegative a))
  | Infinite s, Infinite s' => Infinite (xorb s s')
  | _, _ => NotANumber
  end.





(** Line 155 as computed: the quotient of two ints, then a float
    product. *)
Definition binary64_percent (global_inserted total_all_threads : Z)
  : result Double :=
  let! ratio := int_truediv global_inserted total_all_threads in
  Ok (float_mul ratio (Finite 100)).



(* ===================================================================== *)
(** * Text: [str(int)] and [f"{n:04d}"] *)
(* ===================================================================== *)

Definition digit_char (d : Z) : ascii := ascii_of_nat (48 + Z.to_nat d).

Fixpoint str_digits (fuel : nat) (n : Z) (acc : string) : string :=
  match fuel with
  | O => acc
  | S f =>
      let acc' := String (digit_char (n mod 10)) acc in
      if n <? 10 then acc' else str_digits f (n / 10) acc'
  end.

(** Decimal digits of a non-negative integer; [log2 n + 1] bounds their
    number. *)
Definition str_nonneg (n : Z) : string :=
  str_digits (S (Z.to_nat (Z.log2 n))) n EmptyString.

(** [str(n)]. *)
Definition str (n : Z) : string :=
  if n <? 0 then String "-"%char (str_nonneg (- n)) else str_nonneg n.

Fixpoint zeros (k : nat) : string :=
  match k with
  | O => EmptyString
  | S k' => String "0"%char (zeros k')
  end.

(** [f"{n:04d}"]: sign first, then zeros up to a total width of four. *)
Definition format_04d (n : Z) : string :=
  if n <? 0 then
    let d := str_nonneg (- n) in
    String "-"%char (zeros (3 - String.length d) ++ d)
  else
    let d := str_nonneg n in
    (zeros (4 - String.length d) ++ d)%string.

Definition is_digit (c : ascii) : bool :=
  let k := nat_of_ascii c in ((48 <=? k)%nat && (k <=? 57)%nat)%bool.

Fixpoint all_digits (s : string) : bool :=
  match s with
  | EmptyString => true
  | String c s' => (is_digit c && all_digits s')%bool
  end.

Fixpoint digits_value (s : string) (acc : Z) : Z :=
  match s with
  | EmptyString => acc
  | String c s' => digits_value s' (acc * 10 + (Z.of_nat (nat_of_ascii c) - 48))
  end.

(** The number a non-empty string of decimal digits denotes. *)
Definition numeric_value (s : string) : option Z :=
  match s with
  | EmptyString => None
  | _ => if all_digits s then Some (digits_value s 0) else None
  end.

Definition first_char (s : string) : option ascii :=
  match s with
  | EmptyString => None
  | String c _ => Some c
  end.

(* ===================================================================== *)
(** * The random source *)
(* ===================================================================== *)

(** The process-wide generator is a stream of raw draws and a cursor. *)
Record Rng : Type := mkRng { raw : nat -> Z; cursor : nat }.

Definition Gen (A : Type) : Type := Rng -> A * Rng.

Definition gret {A : Type} (a : A) : Gen A := fun r => (a, r).

Definition gbind {A B : Type} (m : Gen A) (k : A -> Gen B) : Gen B :=
  fun r => let '(a, r') := m r in k a r'.

Notation "'let$' x ':=' m 'in' k" := (gbind m (fun x => k))
  (at level 10, x name, m at level 100, k at level 200, only parsing).

Definition next_raw : Gen Z :=
  fun r => (raw r (cursor r), mkRng (raw r) (S (cursor r))).

(** [random.randint(a, b)] with [a <= b]: any integer of the closed
    interval, chosen by the next raw draw. *)
Definition randint (a b : Z) : Gen Z :=
  let$ x := next_raw in gret (a + x mod (b - a + 1)).

(** [for _ in range(..): batch.append(g())]: one draw of [g] per index,
    appended in order. *)
Fixpoint for_append {A : Type} (idx : list Z) (g : Gen A) (batch : list A)
  : Gen (list A) :=
  match idx with
  | [] => gret batch
  | _ :: rest => let$ x := g in for_append rest g (batch ++ [x])
  end.

(* ===================================================================== *)
(** * Data model *)
(* ===================================================================== *)

(** The dictionary [msg] of [generate_msg], one field per key. *)
Record Msg : Type := mkMsg {
  entity : bool;
  entityIndividualLastName : string;
  individualFirstName : string;
  city : string;
  countryCode : string;
  stateCode : string;
  streetAddress : string;
  zipCode : string;
  phoneNumber : string;
  tinIssuerCountry : string;
  idType : Z;
  idIssuerCountry : string;
  idIssuerState : string;
  idNumber : string;
  dob : Z;
  uid : string;
  location : string;
  ts : Z;
  ctrId : Z;
  amount : float;
  employeeId : string
}.

(** One tuple of the batch, in the column order of [insert_sql]. *)
Record Row : Type := mkRow {
  col_channel_id : Z;
  col_unique_id : string;
  col_loc_detail : string;
  col_ts : Z;
  col_msg : string;
  col_action : Z;
  col_txn_id : Z;
  col_nil_action : Z;
  col_nil_id : option Z
}.

(** The arguments [main] passes to [executor.submit(insert_worker, ...)]. *)
Record Task : Type := mkTask {
  worker_id : Z;
  start_index : Z;
  end_index : Z;
  total_all_threads : Z;
  t0 : Q
}.

(** The values computed under [progress_lock] and printed. *)
Record Snapshot : Type := mkSnapshot {
  snap_worker_id : Z;
  snap_global_inserted : Z;
  snap_total : Z;
  snap_percent : Q;
  snap_left : Z;
  snap_rate : Q;
  snap_eta : Q
}.

(** Lines written to standard output by a worker. *)
Inductive Line : Type :=
| ProgressLine (s : Snapshot)
| CompletedLine (wid total : Z).

(** What the workers share: the random source, the destination table as
    the list of committed batches, the module-level counter, the output. *)
Record World : Type := mkWorld {
  rng : Rng;
  db : list (list Row);
  global_inserted : Z;
  stdout : list Line
}.

(** Where a worker thread stands in [insert_worker]. *)
Inductive Pc : Type :=
| AtLoop                      (* line 131, about to test [inserted < total] *)
| AtAcquire (n : Z)           (* line 153, waiting for [progress_lock] *)
| AtLoad (n : Z)              (* line 154, about to read [global_inserted] *)
| AtStore (n tmp : Z)         (* line 154, about to write [tmp + n] *)
| AtReport                    (* lines 155-164 *)
| AtRelease                   (* end of the [with] block *)
| Returned (ret : Z * Z)      (* line 172 *)
| Failed (e : PyError).

Record Thread : Type := mkThread {
  task : Task;
  inserted : Z;
  pc : Pc
}.

Record Pool : Type := mkPool {
  world : World;
  progress_lock : option nat;
  threads : list Thread
}.

Definition snapshots (out : list Line) : list Snapshot :=
  omap (fun l => match l with ProgressLine s => Some s | _ => None end) out.

Definition batch_sizes (d : list (list Row)) : list Z := len <$> d.

Fixpoint sumZ (l : list Z) : Z :=
  match l with
  | [] => 0
  | x :: l' => x + sumZ l'
  end.

(** External collaborators: the Faker providers, [str(uuid.uuid4())],
    [random.uniform], [round(x, ndigits)] and [json.dumps].  Each provider
    may consume draws of the random source. *)
Record Library : Type := mkLibrary {
  fake_first_name : Gen string;
  fake_last_name : Gen string;
  fake_city : Gen string;
  fake_state_abbr : Gen string;
  fake_street_address : Gen string;
  fake_zipcode : Gen string;
  uuid4_str : Gen string;
  random_uniform : float -> float -> Gen float;
  round_ndigits : float -> Z -> float;
  json_dumps : Msg -> string
}.

(* ===================================================================== *)
(** * The program *)
(* ===================================================================== *)

Section Program.

(** Configuration read from the environment when the module is loaded,
    and the run-start instant in milliseconds. *)
Variables TOTAL_RECORDS BATCH_SIZE THREADS : Z.
Variable start_ts : Z.

(** The library functions the script calls. *)
Variable lib : Library.

(** ** Payload generator *)

(** Lines 70-98 of [generate_msg]: the dictionary before serialisation. *)
#[warnings="-inexact-float"]
Definition generate_msg_dict (uid loc : string) (ts : Z) : Gen Msg :=
  let$ first_name := fake_first_name lib in
  let$ last_name := fake_last_name lib in
  let$ phone_n := randint 6000000000 9999999999 in
  let phone := str phone_n in
  let$ id_n := randint 10000000 99999999 in
  let id_number := str id_n in
  let$ dob := randint 19600101 20051231 in
  let$ u := random_uniform lib 1000.0%float 99999.99%float in
  let amount := round_ndigits lib u 2 in
  let$ city := fake_city lib in
  let$ state_code := fake_state_abbr lib in
  let$ street_address := fake_street_address lib in
  let$ zip_code := fake_zipcode lib in
  let$ id_type := randint 1 9 in
  let$ id_issuer_state := fake_state_abbr lib in
  let$ ctr_id := randint 10 99 in
  let$ employee_n := randint 40000 49999 in
  gret {| entity := false;
          entityIndividualLastName := last_name;
          individualFirstName := first_name;
          city := city;
          countryCode := "US";
          stateCode := state_code;
          streetAddress := street_address;
          zipCode := zip_code;
          phoneNumber := phone;
          tinIssuerCountry := "US";
          idType := id_type;
          idIssuerCountry := "US";
          idIssuerState := id_issuer_state;
          idNumber := id_number;
          dob := dob;
          uid := uid;
          location := loc;
          ts := ts;
          ctrId := ctr_id;
          amount := amount;
          employeeId := str employee_n |}.

Definition generate_msg (uid loc : string) (ts : Z) : Gen string :=
  let$ msg := generate_msg_dict uid loc ts in gret (json_dumps lib msg).

(** ** Coordinator *)

(** Line 179. *)
Definition per_thread : result Z := math_ceil_truediv TOTAL_RECORDS THREADS.

(** Lines 185-187: the arguments of the [i]-th submitted call. *)
Definition submit_args (per_thread : Z) (t0 : Q) (i : Z) : Task :=
  let start_index := i * per_thread in
  let end_index := Z.min ((i + 1) * per_thread) TOTAL_RECORDS in
  mkTask (i + 1) start_index end_index TOTAL_RECORDS t0.

(** Lines 179-187: the tasks handed to the pool.  [ThreadPoolExecutor]
    rejects a non-positive [max_workers]. *)
Definition main_tasks (t0 : Q) : result (list Task) :=
  let! per_thread := per_thread in
  if THREADS <=? 0 then Raise ValueError
  else Ok (submit_args per_thread t0 <$> py_range THREADS).

(** ** Progress aggregator *)

(** Lines 155-159, evaluated with the counter already incremented. *)
Definition progress_snapshot
    (worker_id global_inserted total_all_threads : Z) (t0 now : Q)
  : result Snapshot :=
  let! ratio := truediv (inject_Z global_inserted) (inject_Z total_all_threads) in
  let percent := (ratio * 100)%Q in
  let left := total_all_threads - global_inserted in
  let elapsed := (now - t0)%Q in
  let! rate := (if Qpositive elapsed
                then truediv (inject_Z global_inserted) elapsed
                else Ok 0%Q) in
  let! eta := (if Qpositive rate
               then truediv (inject_Z left) rate
               else Ok 0%Q) in
  Ok (mkSnapshot worker_id global_inserted total_all_threads
                 percent left rate eta).

(** ** Worker *)

(** Lines 134-146: one tuple of the batch. *)
Definition make_row (worker_id : Z) (loc_detail : string) : Gen Row :=
  let$ uid := uuid4_str lib in
  let$ jitter := randint 0 10000000 in
  let ts := start_ts + jitter in
  let$ msg := generate_msg uid loc_detail ts in
  let$ txn := randint 7000 999999 in
  gret (mkRow worker_id uid loc_detail ts msg 10 txn 12 None).

(** Lines 132-146. *)
Definition build_batch (worker_id : Z) (loc_detail : string)
    (total inserted : Z) : Gen (list Row) :=
  for_append (py_range (Z.min BATCH_SIZE (total - inserted)))
             (make_row worker_id loc_detail) [].

(** Lines 148-149: [executemany] and [commit]. *)
Definition commit_batch (batch : list Row) (r : Rng) (w : World) : World :=
  mkWorld r (db w ++ [batch]) (global_inserted w) (stdout w).

Definition set_global_inserted (g : Z) (w : World) : World :=
  mkWorld (rng w) (db w) g (stdout w).

Definition print (l : Line) (w : World) : World :=
  mkWorld (rng w) (db w) (global_inserted w) (stdout w ++ [l]).

(** Lines 131-164 run without interference from other threads.  [clock k]
    is the reading of [time.time()] in iteration [k].  [None] means the
    fuel ran out before the loop ended; a raised exception ends the run
    with the world as it stood. *)
Fixpoint worker_loop (fuel : nat) (worker_id : Z) (loc_detail : string)
    (total total_all_threads : Z) (t0 : Q) (clock : nat -> Q)
    (k : nat) (inserted : Z) (w : World) : option (result Z * World) :=
  match fuel with
  | O => None
  | S fuel' =>
      if inserted <? total then
        let '(batch, r) := build_batch worker_id loc_detail total inserted (rng w) in
        let w1 := commit_batch batch r w in
        let inserted' := inserted + len batch in
        let w2 := set_global_inserted (global_inserted w1 + len batch) w1 in
        match progress_snapshot worker_id (global_inserted w2)
                                total_all_threads t0 (clock k) with
        | Raise e => Some (Raise e, w2)
        | Ok s =>
            worker_loop fuel' worker_id loc_detail total total_all_threads
                        t0 clock (S k) inserted' (print (ProgressLine s) w2)
        end
      else Some (Ok inserted, w)
  end.

(** [insert_worker], lines 127-172. *)
Definition insert_worker (fuel : nat)
    (worker_id start_index end_index total_all_threads : Z) (t0 : Q)
    (clock : nat -> Q) (w : World) : option (result (Z * Z) * World) :=
  let loc_detail := ("ARCC" ++ format_04d worker_id)%string in
  let total := end_index - start_index in
  match worker_loop fuel worker_id loc_detail total total_all_threads
                    t0 clock 0 0 w with
  | None => None
  | Some (Raise e, w') => Some (Raise e, w')
  | Some (Ok _, w') =>
      Some (Ok (worker_id, total), print (CompletedLine worker_id total) w')
  end.

(** ** The pool: interleaved workers *)

Definition total_of (t : Task) : Z := end_index t - start_index t.

Definition loc_detail_of (t : Task) : string :=
  ("ARCC" ++ format_04d (worker_id t))%string.

Definition set_thread (tid : nat) (th : Thread) (p : Pool) : Pool :=
  mkPool (world p) (progress_lock p) (<[tid := th]> (threads p)).

(** One atomic action of thread [tid]; [now] is what [time.time()]
    returns if the action reads the clock.  A thread that waits for the
    lock, has returned or has failed leaves the pool unchanged. *)
Definition step (tid : nat) (now : Q) (p : Pool) : Pool :=
  match threads p !! tid with
  | None => p
  | Some th =>
      let t := task th in
      let w := world p in
      match pc th with
      | AtLoop =>
          if inserted th <? total_of t then
            let '(batch, r) :=
              build_batch (worker_id t) (loc_detail_of t)
                          (total_of t) (inserted th) (rng w) in
            mkPool (commit_batch batch r w) (progress_lock p)
                   (<[tid := mkThread t (inserted th + len batch)
                                      (AtAcquire (len batch))]> (threads p))
          else
            mkPool (print (CompletedLine (worker_id t) (total_of t)) w)
                   (progress_lock p)
                   (<[tid := mkThread t (inserted th)
                                      (Returned (worker_id t, total_of t))]>
                      (threads p))
      | AtAcquire n =>
          match progress_lock p with
          | None =>
              mkPool w (Some tid)
                     (<[tid := mkThread t (inserted th) (AtLoad n)]> (threads p))
          | Some _ => p
          end
      | AtLoad n =>
          set_thread tid (mkThread t (inserted th)
                                   (AtStore n (global_inserted w))) p
      | AtStore n tmp =>
          mkPool (set_global_inserted (tmp + n) w) (progress_lock p)
                 (<[tid := mkThread t (inserted th) AtReport]> (threads p))
      | AtReport =>
          match progress_snapshot (worker_id t) (global_inserted w)
                                  (total_all_threads t) (t0 t) now with
          | Ok s =>
              mkPool (print (ProgressLine s) w) (progress_lock p)
                     (<[tid := mkThread t (inserted th) AtRelease]> (threads p))
          | Raise e =>
              mkPool w None
                     (<[tid := mkThread t (inserted th) (Failed e)]> (threads p))
          end
      | AtRelease =>
          mkPool w None
                 (<[tid := mkThread t (inserted th) AtLoop]> (threads p))
      | Returned _ => p
      | Failed _ => p
      end
  end.

(** A schedule names, action by action, the thread that moves and the
    clock reading it would see. *)
Definition run (sched : list (nat * Q)) (p : Pool) : Pool :=
  fold_left (fun q ev => step (fst ev) (snd ev) q) sched p.

Definition spawn (t : Task) : Thread := mkThread t 0 AtLoop.

(** [main], lines 179-187: the pool once every task is submitted, with
    the counter at its module-level initial value. *)
Definition main (t0 : Q) (r : Rng) : result Pool :=
  let! tasks := main_tasks t0 in
  Ok (mkPool (mkWorld r [] 0 []) None (spawn <$> tasks)).

Definition all_returned (p : Pool) : Prop :=
  Forall (fun th => exists ret, pc th = Returned ret) (threads p).

End Program.

(* ===================================================================== *)
(** * Properties the specification asks of the ranges *)
(* ===================================================================== *)

(** The half-open ranges follow one another from [from] on: each starts
    where the previous one ended and does not end before it starts. *)
Fixpoint chained (from : Z) (tasks : list Task) : Prop :=
  match tasks with
  | [] => True
  | t :: rest =>
      start_index t = from /\ start_index t <= end_index t /\
      chained (end_index t) rest
  end.

Fixpoint chain_end (from : Z) (tasks : list Task) : Z :=
  match tasks with
  | [] => from
  | t :: rest => chain_end (end_index t) rest
  end.

(** The ranges, in worker order, cut [[0, total)] into consecutive
    pieces. *)
Definition partitions (total : Z) (tasks : list Task) : Prop :=
  chained 0 tasks /\ chain_end 0 tasks = total.

Definition range_sizes (tasks : list Task) : list Z := total_of <$> tasks.

Definition rows_due (tasks : list Task) : list Z :=
  (fun t => Z.max 0 (total_of t)) <$> tasks.

(** Sizes of successive batches over a range with [remaining] rows still
    to write: each is [min(BATCH_SIZE, remaining)] and lies between 1 and
    [BATCH_SIZE]. *)
Fixpoint batches_fit (BATCH_SIZE remaining : Z) (sizes : list Z) : Prop :=
  match sizes with
  | [] => True
  | n :: rest =>
      n = Z.min BATCH_SIZE remaining /\ 1 <= n <= BATCH_SIZE /\
      batches_fit BATCH_SIZE (remaining - n) rest
  end.

(** A fixed instance of the collaborators and of the random source, used
    to run the model on examples. *)
Definition sample_lib : Library :=
  mkLibrary (gret "Ann"%string) (gret "Lee"%string) (gret "Reno"%string)
            (gret "NV"%string) (gret "1 Main St"%string) (gret "89501"%string)
            (fun r => let '(x, r') := next_raw r in (str (Z.abs x), r'))
            (fun a _ => gret a) (fun x _ => x) (fun m => uid m).

Definition sample_rng : Rng := mkRng (fun i => Z.of_nat i * 7919 + 13) 0.

Definition sample_world : World := mkWorld sample_rng [] 0 [].

Definition sample_clock (k : nat) : Q := inject_Z (Z.of_nat k + 1).

(** What every tuple built for worker [wid] with tag [loc] looks like:
    fixed columns, bounded random columns, and a payload that repeats the
    tuple's own identifier, tag and timestamp. *)
Definition row_well_formed (start_ts : Z) (lib : Library) (wid : Z)
    (loc : string) (row : Row) : Prop :=
  col_channel_id row = wid /\
  col_loc_detail row = loc /\
  col_action row = 10 /\
  col_nil_action row = 12 /\
  col_nil_id row = None /\
  7000 <= col_txn_id row <= 999999 /\
  start_ts <= col_ts row <= start_ts + 10000000 /\
  exists m : Msg,
    col_msg row = json_dumps lib m /\
    uid m = col_unique_id row /\
    location m = loc /\
    ts m = col_ts row.

(** ** Notions used to reason about the pool *)

(** The thread is inside the [with progress_lock] block. *)
Definition critical (c : Pc) : Prop :=
  match c with
  | AtLoad _ | AtStore _ _ | AtReport | AtRelease => True
  | _ => False
  end.

(** Rows a thread has committed but not yet added to the counter. *)
Definition pending (c : Pc) : Z :=
  match c with
  | AtAcquire n | AtLoad n | AtStore n _ => n
  | _ => 0
  end.

Definition finished (c : Pc) : Prop :=
  match c with
  | Returned _ | Failed _ => True
  | _ => False
  end.

(** What holds of each thread of a pool started by [main]. *)
Definition thread_ok (th : Thread) : Prop :=
  0 <= inserted th <= Z.max 0 (total_of (task th)) /\
  0 <= pending (pc th) <= inserted th /\
  (0 < total_of (task th) -> total_all_threads (task th) <> 0) /\
  match pc th with
  | AtLoop => True
  | Returned ret =>
      ret = (worker_id (task th), total_of (task th)) /\
      inserted th = Z.max 0 (total_of (task th))
  | Failed _ => False
  | _ => 0 < total_of (task th)
  end.

(** The invariant of the pool: the lock is held exactly by the thread
    inside the block, a value read from the counter is still current when
    it is written back, the counter lags the committed rows by the
    pending amounts, and the table holds what the threads have
    inserted. *)
Record pool_inv (p : Pool) : Prop := mkPoolInv {
  inv_holder :
    forall i th, threads p !! i = Some th -> critical (pc th) ->
                 progress_lock p = Some i;
  inv_held :
    forall i, progress_lock p = Some i ->
              exists th, threads p !! i = Some th /\ critical (pc th);
  inv_read :
    forall i th n tmp, threads p !! i = Some th -> pc th = AtStore n tmp ->
                       tmp = global_inserted (world p);
  inv_counter :
    global_inserted (world p)
    = sumZ (inserted <$> threads p) - sumZ ((fun th => pending (pc th)) <$> threads p);
  inv_rows :
    sumZ (batch_sizes (db (world p))) = sumZ (inserted <$> threads p);
  inv_threads : Forall thread_ok (threads p)
}.

(** What holds of a printed snapshot of a pool over [T] records whose
    counter now reads [cur]: lines 155-159 computed it over the total
    [T], which is positive, from a counter value between [0] and
    [cur]. *)
Definition snapshot_ok (T cur : Z) (s : Snapshot) : Prop :=
  0 < T /\ snap_total s = T /\
  0 <= snap_global_inserted s <= cur /\
  exists wid t0 now,
    progress_snapshot wid (snap_global_inserted s) T t0 now = Ok s.

(** The counter values of the snapshots never go down along the list. *)
Definition ascending (l : list Snapshot) : Prop :=
  forall i j s1 s2,
    (i <= j)%nat -> l !! i = Some s1 -> l !! j = Some s2 ->
    snap_global_inserted s1 <= snap_global_inserted s2.

(** The invariant of the output: the snapshots printed so far, in the
    order they were printed. *)
Definition report_inv (T : Z) (p : Pool) : Prop :=
  Forall (snapshot_ok T (global_inserted (world p)))
         (snapshots (stdout (world p))) /\
  ascending (snapshots (stdout (world p))).

(** Steps a thread still has to take, at most: six per row left to
    insert, counted from its position in the loop. *)
Definition rank (th : Thread) : nat :=
  let rem := Z.to_nat (total_of (task th) - inserted th) in
  match pc th with
  | AtLoop => 6 * rem + 1
  | AtAcquire _ => 6 * rem + 6
  | AtLoad _ => 6 * rem + 5
  | AtStore _ _ => 6 * rem + 4
  | AtReport => 6 * rem + 3
  | AtRelease => 6 * rem + 2
  | Returned _ => 0
  | Failed _ => 0
  end.

Fixpoint sum_ranks (l : list Thread) : nat :=
  match l with
  | [] => 0
  | th :: l' => rank th + sum_ranks l'
  end.

Definition pool_rank (p : Pool) : nat := sum_ranks (threads p).

(** A small pool and a schedule to run it: five records, two threads. *)
Definition sample_pool : Pool :=
  mkPool sample_world None (spawn <$> [mkTask 1 0 3 5 0; mkTask 2 3 5 5 0]).

Definition sample_sched : list (nat * Q) :=
  [(0%nat, 1%Q); (1%nat, 1%Q); (0%nat, 2%Q); (1%nat, 2%Q); (0%nat, 3%Q);
   (0%nat, 3%Q); (1%nat, 4%Q)].

(** A schedule that lets the first thread run to its end, then the
    second. *)
Definition sample_full_sched : list (nat * Q) :=
  repeat (0%nat, 1%Q) 13 ++ repeat (1%nat, 2%Q) 7.

(** A committed batch comes from one of the submitted tasks: it holds at
    most [BATCH_SIZE] tuples, at least one when [BATCH_SIZE] is positive,
    all built for that task's worker. *)
Definition batch_from (BATCH_SIZE start_ts : Z) (lib : Library)
    (tasks : list Task) (batch : list Row) : Prop :=
  exists t,
    t ∈ tasks /\
    Forall (row_well_formed start_ts lib (worker_id t) (loc_detail_of t)) batch /\
    0 <= len batch <= Z.max 0 BATCH_SIZE /\
    (1 <= BATCH_SIZE -> 1 <= len batch).

(** The schedule that runs thread [tid] alone for [iters] rounds of the
    loop, from round [k] on, reading [clock j] when round [j] reports,
    and then lets it take the final test. *)
Fixpoint solo_sched (tid : nat) (clock : nat -> Q) (k iters : nat)
  : list (nat * Q) :=
  match iters with
  | O => [(tid, 0%Q)]
  | S iters' =>
      [(tid, 0%Q); (tid, 0%Q); (tid, 0%Q); (tid, 0%Q); (tid, clock k);
       (tid, 0%Q)]
      ++ solo_sched tid clock (S k) iters'
  end.

(* ===================================================================== *)
(** * Integer true division and its ceiling *)
(* ===================================================================== *)

Section Binary64Facts.

Lemma ceil_div_bounds a b :
  0 < b -> b * (ceil_div a b - 1) < a <= b * ceil_div a b.
Proof.
  intros Hb. unfold ceil_div.
  pose proof (Z.div_mod (- a) b ltac:(lia)) as Hdm.
  pose proof (Z.mod_pos_bound (- a) b Hb) as Hm.
  nia.
Qed.

Lemma ceil_div_nonneg a b : 0 < b -> 0 <= a -> 0 <= ceil_div a b.
Proof. intros Hb Ha. pose proof (ceil_div_bounds a b Hb). nia. Qed.

Lemma ceil_div_unique (a b q : Z) :
  0 < b -> b * (q - 1) < a <= b * q -> ceil_div a b = q.
Proof.
  intros Hb Hq. pose proof (ceil_div_bounds a b Hb). nia.
Qed.

(** The rounded quotient is within half a unit of the exact one. *)
Lemma round_half_even_near (num den : Z) :
  0 < den ->
  - den <= 2 * (round_half_even num den * den - num) <= den.
Proof.
  intros Hden. unfold round_half_even.
  pose proof (Z.div_mod num den ltac:(lia)) as Hdm.
  pose proof (Z.mod_pos_bound num den Hden) as Hr.
  destruct (Z.ltb_spec (2 * (num mod den)) den);
    [|destruct (Z.ltb_spec den (2 * (num mod den)));
      [|destruct (Z.even (num / den))]]; nia.
Qed.

Lemma round_half_even_nonneg (num den : Z) :
  0 <= num -> 0 < den -> 0 <= round_half_even num den.
Proof.
  intros Hnum Hden. unfold round_half_even.
  pose proof (Z.div_pos num den Hnum Hden).
  destruct (_ <? _); [|destruct (_ <? _); [|destruct (Z.even _)]]; lia.
Qed.

Lemma pow2_pos (k : Z) : 0 <= k -> 0 < 2 ^ k.
Proof. intros Hk. apply Z.pow_pos_nonneg; lia. Qed.

Lemma pow2_split (x y : Z) : 0 <= x -> 0 <= y -> 2 ^ (x + y) = 2 ^ x * 2 ^ y.
Proof. intros. apply Z.pow_add_r; assumption. Qed.

(** The exponent found is a lower estimate of the quotient, and one of
    the two candidates the bit lengths allow. *)
Lemma quotient_exponent_low (a b : Z) :
  0 < a -> 0 < b ->
  let L := quotient_exponent a b in
  b * 2 ^ Z.max 0 L <= a * 2 ^ Z.max 0 (- L) /\
  Z.log2 a - Z.log2 b - 1 <= L <= Z.log2 a - Z.log2 b.
Proof.
  intros Ha Hb. unfold quotient_exponent.
  pose proof (Z.log2_spec a Ha) as [Hla Hla'].
  pose proof (Z.log2_spec b Hb) as [Hlb Hlb'].
  pose proof (Z.log2_nonneg a) as Hna. pose proof (Z.log2_nonneg b) as Hnb.
  set (la := Z.log2 a) in *. set (lb := Z.log2 b) in *.
  destruct (Z.leb_spec (b * 2 ^ Z.max 0 (la - lb)) (a * 2 ^ Z.max 0 (- (la - lb))))
    as [Hle|Hgt]; cbv zeta.
  - split; [exact Hle|lia].
  - split; [|lia].
    destruct (Z.le_gt_cases 1 (la - lb)) as [Hd|Hd].
    + rewrite (Z.max_r 0 (la - lb - 1)) by lia.
      rewrite (Z.max_l 0 (- (la - lb - 1))) by lia.
      rewrite Z.pow_0_r, Z.mul_1_r.
      assert (Hp : 2 ^ la = 2 ^ Z.succ lb * 2 ^ (la - lb - 1)).
      { rewrite <- pow2_split by lia. f_equal; lia. }
      pose proof (pow2_pos (la - lb - 1) ltac:(lia)). nia.
    + rewrite (Z.max_l 0 (la - lb - 1)) by lia.
      rewrite (Z.max_r 0 (- (la - lb - 1))) by lia.
      rewrite Z.pow_0_r, Z.mul_1_r.
      assert (Hp : 2 ^ Z.succ lb = 2 ^ la * 2 ^ (- (la - lb - 1))).
      { rewrite <- pow2_split by lia. f_equal; lia. }
      pose proof (pow2_pos (- (la - lb - 1)) ltac:(lia)). nia.
Qed.

(** Below [2^53] the quotient keeps all 53 bits above the binary point
    of the integers around it: the double is [m * 2^(L - 52)] with
    [L <= 52], it is within half a unit in the last place of the exact
    quotient, and that unit is smaller than [2 / b]. *)
Lemma binary64_div_small (a b : Z) :
  0 < a < 2 ^ 53 -> 0 < b < 2 ^ 53 ->
  exists m L,
    binary64_div a b = Ok (m, L - 52) /\
    -53 <= L <= 52 /\
    0 <= m /\
    b < 2 * 2 ^ (52 - L) /\
    - b <= 2 * (m * b - a * 2 ^ (52 - L)) <= b.
Proof.
  intros Ha Hb. unfold binary64_div.
  destruct (quotient_exponent_low a b ltac:(lia) ltac:(lia)) as [Hlow HL].
  assert (Hla : Z.log2 a < 53) by (apply Z.log2_lt_pow2; lia).
  assert (Hlb : Z.log2 b < 53) by (apply Z.log2_lt_pow2; lia).
  pose proof (Z.log2_nonneg a). pose proof (Z.log2_nonneg b).
  set (L := quotient_exponent a b) in *.
  cbv zeta.
  rewrite !(Z.max_l (L - 52) (-1074)) by lia.
  rewrite !(Z.max_r 0 (- (L - 52))) by lia.
  rewrite !(Z.max_l 0 (L - 52)) by lia.
  rewrite !Z.pow_0_r, !Z.mul_1_r.
  replace (- (L - 52)) with (52 - L) by lia.
  set (s := 2 ^ (52 - L)) in *.
  assert (Hs : 0 < s) by (apply pow2_pos; lia).
  assert (Hs105 : s <= 2 ^ 105) by (apply Z.pow_le_mono_r; lia).
  assert (H2s : b < 2 * s).
  { assert (E : 2 * s = 2 ^ (53 - L)).
    { unfold s. rewrite <- Z.pow_succ_r by lia. f_equal; lia. }
    rewrite E. destruct (Z.le_gt_cases 0 L) as [HL0|HL0].
    - rewrite (Z.max_r 0 L), (Z.max_l 0 (- L)), Z.pow_0_r, Z.mul_1_r in Hlow
        by lia.
      assert (E2 : 2 ^ 53 = 2 ^ L * 2 ^ (53 - L)).
      { rewrite <- pow2_split by lia. f_equal; lia. }
      pose proof (pow2_pos L HL0). pose proof (pow2_pos (53 - L) ltac:(lia)).
      nia.
    - rewrite (Z.max_l 0 L), (Z.max_r 0 (- L)), Z.pow_0_r, Z.mul_1_r in Hlow
        by lia.
      assert (E2 : 2 ^ (53 - L) = 2 ^ 53 * 2 ^ (- L)).
      { rewrite <- pow2_split by lia. f_equal; lia. }
      pose proof (pow2_pos (- L) ltac:(lia)). nia. }
  pose proof (round_half_even_near (a * s) b ltac:(lia)) as Hnear.
  pose proof (round_half_even_nonneg (a * s) b ltac:(nia) ltac:(lia)) as Hm0.
  set (m := round_half_even (a * s) b) in *.
  assert (Hsmall : m < 2 ^ 1024).
  { assert (m * b <= a * s + b) by lia.
    assert (m <= m * b) by nia.
    assert (a * s <= 2 ^ 53 * 2 ^ 105) by (apply Z.mul_le_mono_nonneg; lia).
    assert (2 ^ 53 * 2 ^ 105 + 2 ^ 53 < 2 ^ 1024) by (vm_compute; reflexivity).
    lia. }
  destruct (Z.leb_spec (2 ^ 1024) m) as [Hov|_]; [lia|].
  exists m, L. repeat split; first [reflexivity | lia].
Qed.

(** So for operands below [2^53] in magnitude line 179 computes the exact
    ceiling of the quotient. *)
Lemma math_ceil_truediv_exact (a b : Z) :
  - 2 ^ 53 < a < 2 ^ 53 -> 0 < b < 2 ^ 53 ->
  math_ceil_truediv a b = Ok (ceil_div a b).
Proof.
  intros Ha Hb. unfold math_ceil_truediv.
  destruct (Z.eqb_spec b 0) as [|_]; [lia|].
  destruct (Z.eqb_spec a 0) as [->|Hne].
  { unfold ceil_div. rewrite Z.opp_0, Z.div_0_l by lia. reflexivity. }
  rewrite (Z.abs_eq b) by lia.
  destruct (binary64_div_small (Z.abs a) b ltac:(lia) Hb)
    as (m & L & -> & HL & Hm0 & H2s & Hnear).
  cbn [rbind fst snd].
  rewrite !(Z.max_l 0 (L - 52)) by lia.
  rewrite !(Z.max_r 0 (- (L - 52))) by lia.
  rewrite !Z.pow_0_r, !Z.mul_1_r.
  replace (- (L - 52)) with (52 - L) by lia.
  set (s := 2 ^ (52 - L)) in *.
  assert (Hs : 0 < s) by (apply pow2_pos; lia).
  destruct (Z.ltb_spec 0 (a * b)) as [Hpos|Hneg].
  - rewrite (Z.abs_eq a) in Hnear by nia.
    pose proof (ceil_div_bounds a b ltac:(lia)) as Hk.
    set (k := ceil_div a b) in *.
    f_equal. apply ceil_div_unique; [exact Hs|]. split.
    + destruct (Z.le_gt_cases m (s * (k - 1))) as [H1|H1]; [exfalso|lia].
      assert (s * (b * (k - 1)) <= s * (a - 1))
        by (apply Z.mul_le_mono_nonneg_l; lia).
      assert (m * b <= s * (k - 1) * b)
        by (apply Z.mul_le_mono_nonneg_r; lia).
      nia.
    + destruct (Z.le_gt_cases m (s * k)) as [H1|H1]; [exact H1|exfalso].
      assert (s * a <= s * (b * k)) by (apply Z.mul_le_mono_nonneg_l; lia).
      assert ((s * k + 1) * b <= m * b)
        by (apply Z.mul_le_mono_nonneg_r; lia).
      nia.
  - assert (Han : a < 0) by nia.
    rewrite (Z.abs_neq a) in Hnear by lia.
    unfold ceil_div. do 2 f_equal.
    pose proof (Z.div_mod (- a) b ltac:(lia)) as Hdm.
    pose proof (Z.mod_pos_bound (- a) b ltac:(lia)) as Hr.
    set (f := - a / b) in *.
    symmetry. apply (Z.div_unique m s f (m - s * f)); [|lia].
    left. split.
    + destruct (Z.le_gt_cases (s * f) m) as [H1|H1]; [lia|exfalso].
      assert (s * (b * f) <= s * (- a))
        by (apply Z.mul_le_mono_nonneg_l; lia).
      assert (m * b <= (s * f - 1) * b)
        by (apply Z.mul_le_mono_nonneg_r; lia).
      nia.
    + destruct (Z.le_gt_cases (s * (f + 1)) m) as [H1|H1]; [exfalso|lia].
      assert (s * (- a) <= s * (b * (f + 1) - 1))
        by (apply Z.mul_le_mono_nonneg_l; lia).
      assert (s * (f + 1) * b <= m * b)
        by (apply Z.mul_le_mono_nonneg_r; lia).
      nia.
Qed.

(** With a positive divisor the result has the sign of the dividend,
    however the quotient was rounded. *)
Lemma math_ceil_truediv_sign (a b pt : Z) :
  0 < b -> math_ceil_truediv a b = Ok pt ->
  (0 <= a -> 0 <= pt) /\ (a <= 0 -> pt <= 0).
Proof.
  intros Hb. unfold math_ceil_truediv.
  destruct (Z.eqb_spec b 0) as [|_]; [lia|].
  destruct (Z.eqb_spec a 0) as [->|Hne]; [intros [= <-]; lia|].
  unfold binary64_div.
  set (e := Z.max (quotient_exponent (Z.abs a) (Z.abs b) - 52) (-1074)).
  pose proof (pow2_pos (Z.max 0 e) ltac:(lia)) as Hp1.
  pose proof (pow2_pos (Z.max 0 (- e)) ltac:(lia)) as Hp2.
  pose proof (round_half_even_nonneg (Z.abs a * 2 ^ Z.max 0 (- e))
                (Z.abs b * 2 ^ Z.max 0 e) ltac:(nia) ltac:(nia)) as Hm.
  set (m := round_half_even _ _) in *.
  destruct (2 ^ 1024 <=? m * 2 ^ Z.max 0 e); [discriminate|].
  cbn [rbind fst snd].
  destruct (Z.ltb_spec 0 (a * b)) as [Hpos|Hneg]; intros [= <-].
  - split; [intros _|nia].
    apply ceil_div_nonneg; [exact Hp2|nia].
  - split; [nia|intros _].
    pose proof (Z.div_pos (m * 2 ^ Z.max 0 e) (2 ^ Z.max 0 (- e))
                  ltac:(nia) Hp2). lia.
Qed.

End Binary64Facts.

(* ===================================================================== *)
(** * Coordinator: the ranges handed to the workers *)
(* ===================================================================== *)

Section CoordinatorFacts.

Lemma py_range_length n : length (py_range n) = Z.to_nat n.
Proof. unfold py_range. rewrite length_fmap, length_seq. reflexivity. Qed.

Lemma py_range_lookup n (i : nat) :
  (i < Z.to_nat n)%nat -> py_range n !! i = Some (Z.of_nat i).
Proof.
  intros Hi. unfold py_range. rewrite list_lookup_fmap, lookup_seq_lt by done.
  reflexivity.
Qed.

Lemma py_range_succ (n : nat) :
  py_range (Z.of_nat (S n)) = py_range (Z.of_nat n) ++ [Z.of_nat n].
Proof.
  unfold py_range. rewrite !Nat2Z.id, seq_S, fmap_app. reflexivity.
Qed.

Lemma sumZ_app l1 l2 : sumZ (l1 ++ l2) = sumZ l1 + sumZ l2.
Proof. induction l1 as [|x l1 IH]; simpl; lia. Qed.

(** What [main] submits when it submits anything: one task per index,
    all cut with the same [per_thread]. *)
Lemma main_tasks_shape T N t0 tasks :
  main_tasks T N t0 = Ok tasks ->
  1 <= N /\
  exists pt,
    per_thread T N = Ok pt /\
    tasks = submit_args T pt t0 <$> py_range N.
Proof.
  unfold main_tasks. destruct (per_thread T N) as [pt|e]; cbn [rbind];
    [|discriminate].
  destruct (Z.leb_spec N 0); [discriminate|].
  intros [= <-]. split; [lia|]. exists pt. auto.
Qed.

(** In the range where the division is exact [per_thread] is the exact
    ceiling. *)
Lemma per_thread_exact T N :
  - 2 ^ 53 < T < 2 ^ 53 -> 1 <= N < 2 ^ 53 ->
  per_thread T N = Ok (ceil_div T N).
Proof.
  intros HT HN. unfold per_thread. apply math_ceil_truediv_exact; lia.
Qed.

Lemma main_tasks_ok T N t0 :
  - 2 ^ 53 < T < 2 ^ 53 -> 1 <= N < 2 ^ 53 ->
  main_tasks T N t0 = Ok (submit_args T (ceil_div T N) t0 <$> py_range N).
Proof.
  intros HT HN. unfold main_tasks. rewrite per_thread_exact by assumption.
  cbn [rbind]. destruct (Z.leb_spec N 0); [lia|]. reflexivity.
Qed.

(** A zero thread count stops [main] at the division; a negative one at
    the division when the quotient overflows, at the construction of the
    executor otherwise. *)
Lemma main_tasks_rejects T N t0 :
  N <= 0 -> exists e, main_tasks T N t0 = Raise e.
Proof.
  intros HN. unfold main_tasks.
  destruct (per_thread T N) as [pt|e]; cbn [rbind]; [|eauto].
  destruct (Z.leb_spec N 0); [eauto|lia].
Qed.

(** The rows the first [n] workers have to write add up to the part of
    [[0, T)] below [n * pt]. *)
Lemma rows_due_prefix T pt t0 (n : nat) :
  0 <= T -> 0 <= pt ->
  sumZ (rows_due (submit_args T pt t0 <$> py_range (Z.of_nat n)))
  = Z.min (Z.of_nat n * pt) T.
Proof.
  intros HT Hpt. induction n as [|n IH].
  - simpl. lia.
  - rewrite py_range_succ. unfold rows_due in *.
    rewrite !fmap_app, sumZ_app, IH. simpl.
    unfold total_of, submit_args. simpl. nia.
Qed.

(** The workers are asked for the part of [[0, TOTAL_RECORDS)] below
    [THREADS * per_thread], once a range that ends before it starts is
    counted as empty: never more than [TOTAL_RECORDS] rows. *)
Lemma rows_due_main T N t0 tasks :
  0 <= T -> main_tasks T N t0 = Ok tasks ->
  exists pt,
    per_thread T N = Ok pt /\ 0 <= pt /\
    sumZ (rows_due tasks) = Z.min (N * pt) T.
Proof.
  intros HT Hm. destruct (main_tasks_shape T N t0 tasks Hm) as (HN & pt & Hpt & ->).
  exists pt. split; [exact Hpt|].
  destruct (math_ceil_truediv_sign T N pt ltac:(lia) Hpt) as [Hpos _].
  split; [auto|].
  rewrite <- (Z2Nat.id N) at 1 by lia.
  rewrite rows_due_prefix by auto. rewrite Z2Nat.id by lia. reflexivity.
Qed.

(** In the exact range they are asked for exactly [TOTAL_RECORDS] rows. *)
Lemma rows_due_total T N t0 tasks :
  0 <= T < 2 ^ 53 -> N < 2 ^ 53 ->
  main_tasks T N t0 = Ok tasks -> sumZ (rows_due tasks) = T.
Proof.
  intros HT HN Hm.
  destruct (rows_due_main T N t0 tasks ltac:(lia) Hm) as (pt & Hpt & _ & ->).
  destruct (main_tasks_shape T N t0 tasks Hm) as (HN1 & _).
  rewrite per_thread_exact in Hpt by lia. injection Hpt as <-.
  pose proof (ceil_div_bounds T N ltac:(lia)). lia.
Qed.

Lemma chained_app from l1 l2 :
  chained from (l1 ++ l2) <-> chained from l1 /\ chained (chain_end from l1) l2.
Proof.
  revert from. induction l1 as [|t l1 IH]; intros from; simpl.
  - tauto.
  - rewrite IH. tauto.
Qed.

Lemma chain_end_app from l1 l2 :
  chain_end from (l1 ++ l2) = chain_end (chain_end from l1) l2.
Proof. revert from. induction l1 as [|t l1 IH]; intros from; simpl; auto. Qed.

Lemma ranges_prefix_chained T pt t0 (n : nat) :
  0 <= T -> 0 <= pt -> Z.of_nat n * pt <= T + pt ->
  let tasks := submit_args T pt t0 <$> py_range (Z.of_nat n) in
  chained 0 tasks /\ chain_end 0 tasks = Z.min (Z.of_nat n * pt) T /\
  sumZ (range_sizes tasks) = Z.min (Z.of_nat n * pt) T.
Proof.
  intros HT Hpt. induction n as [|n IH]; intros Hn tasks.
  - subst tasks. simpl. rewrite Z.min_l by lia. auto.
  - subst tasks. rewrite py_range_succ, fmap_app.
    destruct IH as (Hc & He & Hs); [nia|].
    rewrite chained_app, chain_end_app, He. unfold range_sizes in *.
    rewrite fmap_app, sumZ_app, Hs. simpl. unfold total_of. simpl.
    repeat split; try exact Hc; nia.
Qed.

(** When every worker's range starts inside [[0, TOTAL_RECORDS]], the
    ranges partition the indices and their sizes add up. *)
Lemma ranges_partition_when_starts_fit T N t0 tasks :
  0 <= T < 2 ^ 53 -> 1 <= N < 2 ^ 53 -> (N - 1) * ceil_div T N <= T ->
  main_tasks T N t0 = Ok tasks ->
  partitions T tasks /\ sumZ (range_sizes tasks) = T.
Proof.
  intros HT HN Hfit Hm. rewrite main_tasks_ok in Hm by lia. injection Hm as <-.
  pose proof (ceil_div_bounds T N ltac:(lia)) as Hb.
  pose proof (ceil_div_nonneg T N ltac:(lia) ltac:(lia)) as Hpt.
  destruct (ranges_prefix_chained T (ceil_div T N) t0 (Z.to_nat N)
              ltac:(lia) Hpt)
    as (Hc & He & Hs); [rewrite Z2Nat.id by lia; lia|].
  rewrite Z2Nat.id in * by lia.
  unfold partitions. rewrite He, Hs. repeat split; try exact Hc; lia.
Qed.

End CoordinatorFacts.

(** C1.  The claim asks that the ranges partition [[0, TOTAL_RECORDS)] for
    every input.  Evaluated at [TOTAL_RECORDS = 5], [THREADS = 4]
    ([per_thread = 2]) the coordinator submits [[0,2) [2,4) [4,5) [6,5)]:
    the last range starts at 6, after the third one ended at 5, so the
    ranges are not contiguous, and their sizes [2, 2, 1, -1] add up to 4
    instead of 5.  [end_index] is clamped to [TOTAL_RECORDS] but
    [start_index] is not. *)
Theorem ranges_5_4_do_not_partition :
  exists tasks,
    main_tasks 5 4 0 = Ok tasks /\
    (fun t => (start_index t, end_index t)) <$> tasks
      = [(0, 2); (2, 4); (4, 5); (6, 5)] /\
    range_sizes tasks = [2; 2; 1; -1] /\
    sumZ (range_sizes tasks) = 4 /\
    ~ partitions 5 tasks.
Proof.
  eexists. split; [reflexivity|]. split; [reflexivity|].
  split; [reflexivity|]. split; [reflexivity|].
  unfold partitions. simpl. intros [(_ & _ & _ & _ & _ & _ & H & _) _].
  discriminate H.
Qed.

(** C2, as stated, fails: for [TOTAL_RECORDS = 17], [THREADS = 4] the
    worker ids passed to [insert_worker] are 1, 2, 3, 4 and the first
    submitted call carries the id 1, not 0. *)
Lemma worker_ids_17_4_start_at_one :
  exists tasks,
    main_tasks 17 4 0 = Ok tasks /\
    worker_id <$> tasks = [1; 2; 3; 4] /\
    worker_id <$> tasks <> [0; 1; 2; 3] /\
    tasks !! 0%nat <> Some (mkTask 0 0 5 17 0).
Proof.
  eexists. split; [reflexivity|]. split; [reflexivity|].
  split; simpl; intros H; discriminate H.
Qed.

(** C2, amended.  For [total_records] of magnitude below [2^53] and
    [1 <= thread_count < 2^53] the coordinator computes
    [per_thread = ceil(total_records / thread_count)] and submits, for
    every [i] in [[0, thread_count)] and in that order, a worker with
    [worker_id = i + 1], [start_index = i * per_thread] and
    [end_index = min((i + 1) * per_thread, total_records)]; the worker ids
    are exactly 1, 2, ..., [thread_count]. *)
Theorem main_tasks_spec (T N : Z) (t0 : Q) :
  - 2 ^ 53 < T < 2 ^ 53 ->
  1 <= N < 2 ^ 53 ->
  exists pt tasks,
    per_thread T N = Ok pt /\
    N * (pt - 1) < T <= N * pt /\
    main_tasks T N t0 = Ok tasks /\
    length tasks = Z.to_nat N /\
    (forall i : nat, (i < Z.to_nat N)%nat ->
       tasks !! i
       = Some (mkTask (Z.of_nat i + 1) (Z.of_nat i * pt)
                      (Z.min ((Z.of_nat i + 1) * pt) T) T t0)) /\
    worker_id <$> tasks = Z.of_nat <$> seq 1 (Z.to_nat N).
Proof.
  intros HT HN.
  exists (ceil_div T N), (submit_args T (ceil_div T N) t0 <$> py_range N).
  split; [apply per_thread_exact; assumption|].
  split; [apply ceil_div_bounds; lia|].
  split; [apply main_tasks_ok; assumption|].
  split; [rewrite length_fmap; apply py_range_length|].
  split.
  - intros i Hi. rewrite list_lookup_fmap, py_range_lookup by exact Hi.
    reflexivity.
  - unfold py_range. rewrite <- !list_fmap_compose.
    rewrite <- fmap_S_seq, <- list_fmap_compose.
    apply list_fmap_ext. intros i x _. simpl. lia.
Qed.

Lemma main_tasks_spec_witness :
  - 2 ^ 53 < 17 < 2 ^ 53 /\
  1 <= 4 < 2 ^ 53 /\
  exists pt tasks,
    per_thread 17 4 = Ok pt /\
    4 * (pt - 1) < 17 <= 4 * pt /\
    main_tasks 17 4 0 = Ok tasks /\
    length tasks = Z.to_nat 4 /\
    (forall i : nat, (i < Z.to_nat 4)%nat ->
       tasks !! i
       = Some (mkTask (Z.of_nat i + 1) (Z.of_nat i * pt)
                      (Z.min ((Z.of_nat i + 1) * pt) 17) 17 0)) /\
    worker_id <$> tasks = Z.of_nat <$> seq 1 (Z.to_nat 4).
Proof.
  split; [split; reflexivity|]. split; [split; [lia|reflexivity]|].
  apply (main_tasks_spec 17 4 0); [split; reflexivity|split; [lia|reflexivity]].
Defined.

(** Beyond that range line 179 no longer yields the exact ceiling: the
    quotient of [2^53 + 1] by 2 is rounded to [2^52] before the ceiling is
    taken, and a quotient too large for a double raises. *)
Example per_thread_rounds_at_2_53 :
  per_thread (2 ^ 53 + 1) 2 = Ok (2 ^ 52) /\
  ceil_div (2 ^ 53 + 1) 2 = 2 ^ 52 + 1.
Proof. split; vm_compute; reflexivity. Qed.

Example per_thread_overflows :
  per_thread (10 ^ 400) 1 = Raise OverflowError /\
  per_thread (10 ^ 400) (-2) = Raise OverflowError.
Proof. split; vm_compute; reflexivity. Qed.

(** The example of the specification: 17 records over 4 threads. *)
Example ranges_17_4 :
  exists tasks,
    main_tasks 17 4 0 = Ok tasks /\
    (fun t => (start_index t, end_index t)) <$> tasks
      = [(0, 5); (5, 10); (10, 15); (15, 17)] /\
    range_sizes tasks = [5; 5; 5; 2].
Proof. eexists. repeat split; reflexivity. Qed.

(* ===================================================================== *)
(** * Text and random draws *)
(* ===================================================================== *)

Section TextFacts.

Lemma string_app_assoc (a b c : string) :
  ((a ++ b) ++ c = a ++ (b ++ c))%string.
Proof. induction a as [|x a IH]; simpl; [reflexivity|now rewrite IH]. Qed.

Lemma string_length_app (a b : string) :
  String.length (a ++ b) = (String.length a + String.length b)%nat.
Proof. induction a as [|x a IH]; simpl; [reflexivity|now rewrite IH]. Qed.

Lemma all_digits_app (a b : string) :
  all_digits (a ++ b) = (all_digits a && all_digits b)%bool.
Proof.
  induction a as [|x a IH]; simpl; [reflexivity|].
  rewrite IH. now rewrite andb_assoc.
Qed.

Lemma digits_value_app (a b : string) (acc : Z) :
  digits_value (a ++ b) acc = digits_value b (digits_value a acc).
Proof. revert acc. induction a as [|x a IH]; intros acc; simpl; auto. Qed.

Lemma first_char_app (a b : string) :
  a <> EmptyString -> first_char (a ++ b) = first_char a.
Proof. destruct a; [congruence|reflexivity]. Qed.

Lemma digit_char_code d :
  0 <= d < 10 -> Z.of_nat (nat_of_ascii (digit_char d)) = 48 + d.
Proof.
  intros Hd. unfold digit_char. rewrite nat_ascii_embedding by lia. lia.
Qed.

Lemma digit_char_is_digit d : 0 <= d < 10 -> is_digit (digit_char d) = true.
Proof.
  intros Hd. pose proof (digit_char_code d Hd) as Hc. unfold is_digit.
  apply andb_true_iff. split; apply Nat.leb_le; lia.
Qed.

(** The digits of a number of exactly [k + 1] decimal digits. *)
Lemma str_digits_spec (k : nat) :
  forall (fuel : nat) (n : Z) (acc : string),
    (S k <= fuel)%nat ->
    0 <= n < 10 ^ Z.of_nat (S k) ->
    ((0 < k)%nat -> 10 ^ Z.of_nat k <= n) ->
    exists s,
      str_digits fuel n acc = (s ++ acc)%string /\
      String.length s = S k /\
      all_digits s = true /\
      (forall a, digits_value s a = a * 10 ^ Z.of_nat (S k) + n) /\
      first_char s = Some (digit_char (n / 10 ^ Z.of_nat k)).
Proof.
  induction k as [|k IH]; intros fuel n acc Hfuel Hn Hlow.
  - destruct fuel as [|f]; [lia|].
    change (10 ^ Z.of_nat 1) with 10 in *. change (10 ^ Z.of_nat 0) with 1.
    cbn [str_digits].
    destruct (Z.ltb_spec n 10); [|lia].
    rewrite Z.mod_small by lia.
    exists (String (digit_char n) EmptyString).
    cbn [append String.length all_digits digits_value first_char].
    rewrite Z.div_1_r, digit_char_is_digit by lia.
    repeat split; trivial.
    intros a. rewrite digit_char_code by lia. lia.
  - destruct fuel as [|f]; [lia|].
    assert (Hpow : 10 ^ Z.of_nat (S k) = 10 * 10 ^ Z.of_nat k).
    { rewrite Nat2Z.inj_succ, Z.pow_succ_r by lia. reflexivity. }
    assert (Hpow2 : 10 ^ Z.of_nat (S (S k)) = 10 * 10 ^ Z.of_nat (S k)).
    { rewrite (Nat2Z.inj_succ (S k)), Z.pow_succ_r by lia. reflexivity. }
    assert (Hpos : 0 < 10 ^ Z.of_nat k) by (apply Z.pow_pos_nonneg; lia).
    specialize (Hlow ltac:(lia)).
    cbn [str_digits]. destruct (Z.ltb_spec n 10) as [Hlt|_]; [lia|].
    pose proof (Z.div_mod n 10 ltac:(lia)) as Hdm.
    pose proof (Z.mod_pos_bound n 10 ltac:(lia)) as Hm.
    destruct (IH f (n / 10) (String (digit_char (n mod 10)) acc))
      as (s & Hs & Hlen & Hall & Hval & Hfirst).
    + lia.
    + lia.
    + intros _. lia.
    + exists (s ++ String (digit_char (n mod 10)) EmptyString)%string.
      rewrite Hs, string_app_assoc. cbn [append].
      split; [reflexivity|].
      split; [rewrite string_length_app, Hlen; cbn [String.length]; lia|].
      split.
      { rewrite all_digits_app, Hall. cbn [all_digits andb].
        rewrite digit_char_is_digit by lia. reflexivity. }
      split.
      { intros a. rewrite digits_value_app, Hval. cbn [digits_value].
        rewrite digit_char_code by lia. lia. }
      rewrite first_char_app by (intros ->; simpl in Hlen; lia).
      rewrite Hfirst. do 2 f_equal.
      rewrite Z.div_div by lia. f_equal. lia.
Qed.

(** [str] on a number of [k + 1] digits. *)
Lemma str_spec (k : nat) (n : Z) :
  10 ^ Z.of_nat k <= n < 10 ^ Z.of_nat (S k) ->
  String.length (str n) = S k /\
  all_digits (str n) = true /\
  numeric_value (str n) = Some n /\
  first_char (str n) = Some (digit_char (n / 10 ^ Z.of_nat k)).
Proof.
  intros Hn.
  assert (Hpos : 0 < 10 ^ Z.of_nat k) by (apply Z.pow_pos_nonneg; lia).
  assert (Hlog : Z.of_nat k <= Z.log2 n).
  { apply Z.log2_le_pow2; [lia|].
    transitivity (10 ^ Z.of_nat k); [|lia].
    apply Z.pow_le_mono_l. lia. }
  unfold str. destruct (Z.ltb_spec n 0); [lia|]. unfold str_nonneg.
  destruct (str_digits_spec k (S (Z.to_nat (Z.log2 n))) n EmptyString)
    as (s & Hs & Hlen & Hall & Hval & Hfirst); [lia|lia|lia|].
  assert (Hs' : (s ++ "")%string = s).
  { clear. induction s as [|c s IH]; simpl; [reflexivity|now rewrite IH]. }
  rewrite Hs, Hs'. repeat split; trivial.
  unfold numeric_value. destruct s as [|c s]; [simpl in Hlen; lia|].
  rewrite Hall, Hval. f_equal; lia.
Qed.

(** The same for a number known to lie in an interval of [k + 1]-digit
    numbers: the leading digit is between those of the bounds. *)
Lemma str_in_range (k : nat) (lo hi n : Z) :
  10 ^ Z.of_nat k <= lo -> hi < 10 ^ Z.of_nat (S k) -> lo <= n <= hi ->
  String.length (str n) = S k /\
  all_digits (str n) = true /\
  numeric_value (str n) = Some n /\
  exists d,
    lo / 10 ^ Z.of_nat k <= d <= hi / 10 ^ Z.of_nat k /\
    first_char (str n) = Some (digit_char d).
Proof.
  intros Hlo Hhi Hn.
  assert (Hpos : 0 < 10 ^ Z.of_nat k) by (apply Z.pow_pos_nonneg; lia).
  destruct (str_spec k n) as (Hl & Ha & Hv & Hf); [lia|].
  repeat split; trivial.
  exists (n / 10 ^ Z.of_nat k). split; [|exact Hf].
  split; apply Z.div_le_mono; lia.
Qed.

Lemma randint_range (a b : Z) (r : Rng) :
  a <= b -> a <= fst (randint a b r) <= b.
Proof.
  intros Hab. unfold randint, gbind, next_raw, gret. simpl.
  pose proof (Z.mod_pos_bound (raw r (cursor r)) (b - a + 1) ltac:(lia)). lia.
Qed.

(** Every value of the interval is produced by some draw. *)
Lemma randint_onto (a b v : Z) :
  a <= v <= b -> fst (randint a b (mkRng (fun _ => v - a) 0)) = v.
Proof.
  intros Hv. unfold randint, gbind, next_raw, gret. simpl.
  rewrite Z.mod_small by lia. lia.
Qed.

End TextFacts.

(* ===================================================================== *)
(** * Payload generator *)
(* ===================================================================== *)

(** Name the result of the next generator call in the goal. *)
Ltac next_draw :=
  match goal with
  | |- context [let '(_, _) := ?g ?r in _] =>
      let x := fresh "x" in
      let r' := fresh "r" in
      let E := fresh "E" in
      destruct (g r) as [x r'] eqn:E
  end.

Ltac in_range E :=
  match type of E with
  | randint ?a ?b ?r = (?x, _) =>
      let H := fresh "H" x in
      pose proof (randint_range a b r ltac:(lia)) as H;
      rewrite E in H; simpl in H
  end.

(** C9.  Whatever the inputs and the random draws, the object that
    [generate_msg] serialises has [entity = False], [countryCode = "US"],
    a [phoneNumber] of exactly 10 digits starting with 6, 7, 8 or 9, an
    [idNumber] of exactly 8 digits, a [dob] that is an 8-digit integer in
    [[19600101, 20051231]], a [ctrId] in [[10, 99]], an [employeeId] whose
    numeric value lies in [[40000, 49999]], and carries the three inputs
    unchanged under [uid], [location] and [ts]. *)
Theorem generate_msg_fields (lib : Library) (u l : string) (t : Z) (r : Rng) :
  let m := fst (generate_msg_dict lib u l t r) in
  fst (generate_msg lib u l t r) = json_dumps lib m /\
  entity m = false /\
  countryCode m = "US"%string /\
  (String.length (phoneNumber m) = 10%nat /\
   all_digits (phoneNumber m) = true /\
   exists d, 6 <= d <= 9 /\ first_char (phoneNumber m) = Some (digit_char d)) /\
  (String.length (idNumber m) = 8%nat /\ all_digits (idNumber m) = true) /\
  (19600101 <= dob m <= 20051231 /\ String.length (str (dob m)) = 8%nat) /\
  10 <= ctrId m <= 99 /\
  (exists v, numeric_value (employeeId m) = Some v /\ 40000 <= v <= 49999) /\
  uid m = u /\ location m = l /\ ts m = t.
Proof.
  unfold generate_msg. unfold gbind at 1.
  destruct (generate_msg_dict lib u l t r) as [m r'] eqn:Em. simpl.
  split; [reflexivity|].
  revert Em. unfold generate_msg_dict, gbind, gret.
  repeat next_draw. intros [= <- _].
  cbn [entity countryCode phoneNumber idNumber dob ctrId employeeId uid location ts].
  repeat match goal with E : randint _ _ _ = _ |- _ => in_range E; clear E end.
  split; [reflexivity|]. split; [reflexivity|].
  split.
  { destruct (str_in_range 9 6000000000 9999999999 x1)
      as (Hl & Ha & _ & d & Hd & Hf); [by vm_compute|by vm_compute|lia|].
    split; [exact Hl|]. split; [exact Ha|].
    exists d. split; [|exact Hf].
    change (6000000000 / 10 ^ Z.of_nat 9) with 6 in Hd.
    change (9999999999 / 10 ^ Z.of_nat 9) with 9 in Hd. exact Hd. }
  split.
  { destruct (str_in_range 7 10000000 99999999 x2) as (Hl & Ha & _);
      [by vm_compute|by vm_compute|lia|]. auto. }
  split.
  { split; [lia|].
    destruct (str_in_range 7 19600101 20051231 x3) as (Hl & _);
      [by vm_compute|by vm_compute|lia|]. exact Hl. }
  split; [lia|].
  split.
  { destruct (str_in_range 4 40000 49999 x12) as (_ & _ & Hv & _);
      [by vm_compute|by vm_compute|lia|]. eauto. }
  auto.
Qed.

(* ===================================================================== *)
(** * Worker, run on its own *)
(* ===================================================================== *)

Section WorkerFacts.

Context (BATCH_SIZE start_ts : Z) (lib : Library).

Lemma len_nonneg {A : Type} (l : list A) : 0 <= len l.
Proof. unfold len. lia. Qed.

Lemma for_append_length {A : Type} (idx : list Z) (g : Gen A) :
  forall (batch : list A) (r : Rng),
    length (fst (for_append idx g batch r)) = (length batch + length idx)%nat.
Proof.
  induction idx as [|i idx IH]; intros batch r; simpl.
  - lia.
  - unfold gbind. destruct (g r) as [x r']. rewrite IH, length_app. simpl. lia.
Qed.

Lemma build_batch_len (wid : Z) (loc : string) (total inserted : Z) (r : Rng) :
  len (fst (build_batch BATCH_SIZE start_ts lib wid loc total inserted r))
  = Z.max 0 (Z.min BATCH_SIZE (total - inserted)).
Proof.
  unfold build_batch, len. rewrite for_append_length, py_range_length.
  simpl. lia.
Qed.

Lemma Qpositive_spec (x : Q) : Qpositive x = true <-> (0 < x)%Q.
Proof.
  unfold Qpositive. rewrite negb_true_iff.
  destruct (Qle_bool x 0) eqn:E.
  - apply Qle_bool_iff in E. split; [discriminate|].
    intros H. exfalso. apply (Qlt_not_le _ _ H E).
  - split; [intros _|reflexivity].
    apply Qnot_le_lt. intros H. apply Qle_bool_iff in H. congruence.
Qed.

Lemma truediv_ok (a b : Q) : ~ (b == 0)%Q -> truediv a b = Ok (a / b)%Q.
Proof.
  intros Hb. unfold truediv. destruct (Qeq_bool b 0) eqn:E; [|reflexivity].
  apply Qeq_bool_iff in E. contradiction.
Qed.

Lemma inject_Z_nonzero (z : Z) : z <> 0 -> ~ (inject_Z z == 0)%Q.
Proof. intros Hz H. unfold Qeq in H. simpl in H. lia. Qed.

Lemma positive_nonzero (x : Q) : (0 < x)%Q -> ~ (x == 0)%Q.
Proof. intros H E. rewrite E in H. apply (Qlt_irrefl _ H). Qed.

(** The report never fails unless the grand total is zero, and then it
    does. *)
Lemma progress_snapshot_defined (wid g total : Z) (t0 now : Q) :
  total <> 0 -> exists s, progress_snapshot wid g total t0 now = Ok s.
Proof.
  intros Ht. unfold progress_snapshot.
  rewrite (truediv_ok _ _ (inject_Z_nonzero total Ht)). simpl.
  destruct (Qpositive (now - t0)) eqn:Ee.
  - apply Qpositive_spec in Ee. rewrite (truediv_ok _ _ (positive_nonzero _ Ee)).
    simpl. destruct (Qpositive (inject_Z g / (now - t0))) eqn:Er.
    + apply Qpositive_spec in Er. rewrite (truediv_ok _ _ (positive_nonzero _ Er)).
      simpl. eauto.
    + simpl. eauto.
  - simpl. eauto.
Qed.

Lemma progress_snapshot_zero_total (wid g : Z) (t0 now : Q) :
  progress_snapshot wid g 0 t0 now = Raise ZeroDivisionError.
Proof. reflexivity. Qed.

Lemma snapshots_print_progress (s : Snapshot) (w : World) :
  snapshots (stdout (print (ProgressLine s) w)) = snapshots (stdout w) ++ [s].
Proof. unfold snapshots, print. simpl. rewrite omap_app. reflexivity. Qed.

Lemma snapshots_print_completed (wid total : Z) (w : World) :
  snapshots (stdout (print (CompletedLine wid total) w)) = snapshots (stdout w).
Proof.
  unfold snapshots, print. simpl. rewrite omap_app. simpl. apply app_nil_r.
Qed.

Lemma batch_sizes_snoc (d : list (list Row)) (b : list Row) :
  batch_sizes (d ++ [b]) = batch_sizes d ++ [len b].
Proof. unfold batch_sizes. rewrite fmap_app. reflexivity. Qed.

(** What one run of the loop does, from any point of the range on. *)
Lemma worker_loop_spec (wid : Z) (loc : string) (total total_all : Z)
    (t0 : Q) (clock : nat -> Q) :
  1 <= BATCH_SIZE ->
  forall (fuel k : nat) (inserted : Z) (w : World),
    inserted <= total ->
    (Z.to_nat (total - inserted) < fuel)%nat ->
    exists res w' new,
      worker_loop BATCH_SIZE start_ts lib fuel wid loc total total_all
                  t0 clock k inserted w = Some (res, w') /\
      db w' = db w ++ new /\
      batches_fit BATCH_SIZE (total - inserted) (batch_sizes new) /\
      (Z.of_nat (length new) <= total - inserted) /\
      global_inserted w' = global_inserted w + sumZ (batch_sizes new) /\
      match res with
      | Ok ins =>
          ins = total /\ sumZ (batch_sizes new) = total - inserted /\
          length (snapshots (stdout w'))
          = (length (snapshots (stdout w)) + length new)%nat
      | Raise e => e = ZeroDivisionError /\ total_all = 0
      end.
Proof.
  intros HB. induction fuel as [|fuel IH]; intros k inserted w Hle Hfuel; [lia|].
  cbn [worker_loop]. destruct (Z.ltb_spec inserted total) as [Hlt|Hge].
  - pose proof (build_batch_len wid loc total inserted (rng w)) as Hlen.
    destruct (build_batch BATCH_SIZE start_ts lib wid loc total inserted (rng w))
      as [batch r] eqn:Eb. cbn [fst] in Hlen.
    rewrite Z.max_r in Hlen by lia.
    set (w1 := commit_batch batch r w).
    set (w2 := set_global_inserted (global_inserted w1 + len batch) w1).
    assert (Hdb2 : db w2 = db w ++ [batch]) by reflexivity.
    assert (Hg2 : global_inserted w2 = global_inserted w + len batch)
      by reflexivity.
    assert (Hout2 : stdout w2 = stdout w) by reflexivity.
    clearbody w2. clear w1.
    destruct (Z.eq_dec total_all 0) as [Hz|Hnz].
    + subst total_all. rewrite progress_snapshot_zero_total.
      exists (Raise ZeroDivisionError), w2, [batch].
      split; [reflexivity|]. split; [exact Hdb2|].
      split; [cbn [batch_sizes fmap list_fmap batches_fit]; lia|].
      split; [cbn [length]; lia|].
      split; [rewrite Hg2; cbn [batch_sizes fmap list_fmap sumZ]; lia|].
      split; reflexivity.
    + destruct (progress_snapshot_defined wid (global_inserted w2)
                  total_all t0 (clock k) Hnz) as [s Hs].
      rewrite Hs.
      destruct (IH (S k) (inserted + len batch) (print (ProgressLine s) w2))
        as (res & w' & new & Hrun & Hdb & Hfit & Hcnt & Hg & Hres); [lia|lia|].
      rewrite Hrun. exists res, w', (batch :: new).
      split; [reflexivity|].
      split.
      { rewrite Hdb. unfold print. cbn [db]. rewrite Hdb2, <- app_assoc.
        reflexivity. }
      split.
      { change (batch_sizes (batch :: new)) with (len batch :: batch_sizes new).
        cbn [batches_fit].
        replace (total - inserted - len batch)
          with (total - (inserted + len batch)) by lia.
        split; [lia|]. split; [lia|]. exact Hfit. }
      split; [cbn [length]; lia|].
      split.
      { rewrite Hg. unfold print. cbn [global_inserted]. rewrite Hg2.
        change (batch_sizes (batch :: new)) with (len batch :: batch_sizes new).
        cbn [sumZ]. lia. }
      destruct res as [ins|e]; [|exact Hres].
      destruct Hres as (-> & Hsum & Hsn). split; [reflexivity|].
      split.
      { change (batch_sizes (batch :: new)) with (len batch :: batch_sizes new).
        cbn [sumZ]. lia. }
      rewrite Hsn, snapshots_print_progress, length_app, Hout2.
      cbn [length]. lia.
  - exists (Ok inserted), w, []. rewrite app_nil_r.
    split; [reflexivity|]. split; [reflexivity|].
    split; [exact I|]. split; [cbn [length]; lia|].
    split; [cbn [batch_sizes fmap list_fmap sumZ]; lia|].
    split; [lia|]. split; [cbn [batch_sizes fmap list_fmap sumZ]; lia|].
    cbn [length]. lia.
Qed.

End WorkerFacts.

Lemma batches_fit_bounds (B remaining : Z) (sizes : list Z) :
  batches_fit B remaining sizes -> Forall (fun n => 1 <= n <= B) sizes.
Proof.
  revert remaining. induction sizes as [|n sizes IH]; intros remaining H.
  - constructor.
  - destruct H as (_ & Hn & Hrest). constructor; [exact Hn|].
    exact (IH _ Hrest).
Qed.

(** C3.  For a range with [end_index >= start_index] and
    [BATCH_SIZE >= 1], the worker runs to the end of its loop (or to a
    raised exception) and every batch it has passed to
    [executemany]/[commit] is non-empty, has exactly
    [min(BATCH_SIZE, remaining_in_range)] rows, and so between 1 and
    [BATCH_SIZE] rows. *)
Theorem insert_worker_batch_sizes
    (BATCH_SIZE start_ts : Z) (lib : Library) (fuel : nat)
    (wid start_index end_index total_all : Z) (t0 : Q)
    (clock : nat -> Q) (w : World) :
  start_index <= end_index ->
  1 <= BATCH_SIZE ->
  (Z.to_nat (end_index - start_index) < fuel)%nat ->
  exists res w' new,
    insert_worker BATCH_SIZE start_ts lib fuel wid start_index end_index
                  total_all t0 clock w = Some (res, w') /\
    db w' = db w ++ new /\
    batches_fit BATCH_SIZE (end_index - start_index) (batch_sizes new) /\
    Forall (fun b => b <> [] /\ 1 <= len b <= BATCH_SIZE) new.
Proof.
  intros Hrange HB Hfuel. unfold insert_worker.
  destruct (worker_loop_spec BATCH_SIZE start_ts lib wid
              ("ARCC" ++ format_04d wid)%string (end_index - start_index)
              total_all t0 clock HB fuel 0%nat 0 w)
    as (res & w' & new & Hrun & Hdb & Hfit & _ & _ & _); [lia|lia|].
  rewrite Z.sub_0_r in Hfit. rewrite Hrun.
  assert (Hall : Forall (fun b : list Row => b <> [] /\ 1 <= len b <= BATCH_SIZE) new).
  { apply batches_fit_bounds in Hfit. unfold batch_sizes in Hfit.
    rewrite Forall_fmap in Hfit. eapply Forall_impl; [exact Hfit|].
    intros b Hb. simpl in Hb. split; [|exact Hb].
    intros ->. unfold len in Hb. simpl in Hb. lia. }
  destruct res as [ins|e].
  - eexists _, _, new. split; [reflexivity|]. unfold print. cbn [db]. auto.
  - eexists _, _, new. split; [reflexivity|]. auto.
Qed.

Lemma insert_worker_batch_sizes_witness :
  0 <= 5 /\ 1 <= 2 /\ (Z.to_nat (5 - 0) < 6)%nat /\
  exists res w' new,
    insert_worker 2 1000 sample_lib 6 1 0 5 5 0 sample_clock sample_world
    = Some (res, w') /\
    db w' = db sample_world ++ new /\
    batches_fit 2 (5 - 0) (batch_sizes new) /\
    Forall (fun b => b <> [] /\ 1 <= len b <= 2) new.
Proof.
  split; [lia|]. split; [lia|]. split; [simpl; lia|].
  apply (insert_worker_batch_sizes 2 1000 sample_lib 6 1 0 5 5 0
           sample_clock sample_world); simpl; lia.
Defined.




(** The sample run: five rows in batches of two. *)
Example insert_worker_sample :
  exists w',
    insert_worker 2 1000 sample_lib 6 1 0 5 5 0 sample_clock sample_world
    = Some (Ok (1, 5), w') /\
    batch_sizes (db w') = [2; 2; 1] /\
    global_inserted w' = 5 /\
    snap_global_inserted <$> snapshots (stdout w') = [2; 4; 5].
Proof. eexists. split; [vm_compute; reflexivity|]. repeat split. Qed.

(** C10.  A worker whose range has [start_index >= end_index] never
    enters its loop: it writes no batch, leaves [global_inserted] alone,
    prints no progress line, and returns
    [(worker_id, end_index - start_index)], a number that is zero or
    negative.  The coordinator hands out such a range to the worker of
    index [i] whenever [i * per_thread >= TOTAL_RECORDS]. *)
Theorem insert_worker_empty_range
    (BATCH_SIZE start_ts : Z) (lib : Library) (fuel : nat)
    (wid first_index last_index total_all : Z) (t0 : Q)
    (clock : nat -> Q) (w : World) :
  last_index <= first_index ->
  (exists w',
     insert_worker BATCH_SIZE start_ts lib (S fuel) wid first_index last_index
                   total_all t0 clock w
     = Some (Ok (wid, last_index - first_index), w') /\
     db w' = db w /\
     global_inserted w' = global_inserted w /\
     snapshots (stdout w') = snapshots (stdout w) /\
     stdout w' = stdout w ++ [CompletedLine wid (last_index - first_index)]) /\
  last_index - first_index <= 0 /\
  (forall (T N pt : Z) (t0' : Q) (tasks : list Task) (i : nat) (t : Task),
     per_thread T N = Ok pt ->
     main_tasks T N t0' = Ok tasks ->
     tasks !! i = Some t ->
     T <= Z.of_nat i * pt ->
     end_index t <= start_index t).
Proof.
  intros Hrange. split; [|split; [lia|]].
  - unfold insert_worker. cbn [worker_loop].
    destruct (Z.ltb_spec 0 (last_index - first_index)); [lia|].
    eexists. split; [reflexivity|].
    rewrite snapshots_print_completed. auto.
  - intros T N pt t0' tasks i t Hpt Hm Hi Hfar.
    destruct (main_tasks_shape T N t0' tasks Hm) as (HN & pt' & Hpt' & ->).
    assert (pt' = pt) by congruence. subst pt'.
    rewrite list_lookup_fmap in Hi.
    destruct (py_range N !! i) as [j|] eqn:Ej; [|discriminate].
    injection Hi as <-. cbn [submit_args start_index end_index].
    assert (Hlt : (i < Z.to_nat N)%nat).
    { apply lookup_lt_Some in Ej. rewrite py_range_length in Ej. exact Ej. }
    rewrite py_range_lookup in Ej by exact Hlt. injection Ej as <-. lia.
Qed.

Lemma insert_worker_empty_range_witness :
  5 <= 6 /\
  (exists w',
     insert_worker 2 1000 sample_lib 1 4 6 5 5 0 sample_clock sample_world
     = Some (Ok (4, 5 - 6), w') /\
     db w' = db sample_world /\
     global_inserted w' = global_inserted sample_world /\
     snapshots (stdout w') = snapshots (stdout sample_world) /\
     stdout w' = stdout sample_world ++ [CompletedLine 4 (5 - 6)]) /\
  5 - 6 <= 0 /\
  (forall (T N pt : Z) (t0' : Q) (tasks : list Task) (i : nat) (t : Task),
     per_thread T N = Ok pt ->
     main_tasks T N t0' = Ok tasks ->
     tasks !! i = Some t ->
     T <= Z.of_nat i * pt ->
     end_index t <= start_index t).
Proof.
  split; [lia|].
  apply (insert_worker_empty_range 2 1000 sample_lib 0 4 6 5 5 0
           sample_clock sample_world). lia.
Defined.

(** With fewer records than threads the workers past the last record get
    such ranges: three records over five threads. *)
Example ranges_3_5 :
  exists tasks,
    main_tasks 3 5 0 = Ok tasks /\
    (fun t => (worker_id t, start_index t, end_index t)) <$> tasks
      = [(1, 0, 1); (2, 1, 2); (3, 2, 3); (4, 3, 3); (5, 4, 3)].
Proof. eexists. split; reflexivity. Qed.

(* ===================================================================== *)
(** * More on the coordinator *)
(* ===================================================================== *)

Lemma chained_ordered (from : Z) (tasks : list Task) :
  chained from tasks -> Forall (fun t => start_index t <= end_index t) tasks.
Proof.
  revert from. induction tasks as [|t tasks IH]; intros from H.
  - constructor.
  - destruct H as (_ & Hle & Hrest). constructor; [exact Hle|].
    exact (IH _ Hrest).
Qed.

Lemma last_start_fits_of_partition (T N : Z) (t0 : Q) (tasks : list Task) :
  - 2 ^ 53 < T < 2 ^ 53 -> 1 <= N < 2 ^ 53 ->
  main_tasks T N t0 = Ok tasks -> partitions T tasks ->
  (N - 1) * ceil_div T N <= T.
Proof.
  intros HT HN Hm [Hc _]. rewrite main_tasks_ok in Hm by assumption.
  injection Hm as <-. apply chained_ordered in Hc.
  rewrite Forall_lookup in Hc.
  specialize (Hc (Z.to_nat (N - 1))
                 (submit_args T (ceil_div T N) t0 (Z.of_nat (Z.to_nat (N - 1))))).
  rewrite list_lookup_fmap, py_range_lookup in Hc by lia.
  specialize (Hc eq_refl). cbn [submit_args start_index end_index] in Hc.
  rewrite Z2Nat.id in Hc by lia. lia.
Qed.

(** X2.  For [0 <= TOTAL_RECORDS < 2^53] and [1 <= THREADS < 2^53] every
    submitted range lies inside [[0, TOTAL_RECORDS]] at its end, starts at
    a non-negative index, and the rows the workers will write (a range
    that ends before it starts yields none) add up to [TOTAL_RECORDS]. *)
Theorem submitted_rows_add_up (T N : Z) (t0 : Q) :
  0 <= T < 2 ^ 53 -> 1 <= N < 2 ^ 53 ->
  exists tasks,
    main_tasks T N t0 = Ok tasks /\
    sumZ (rows_due tasks) = T /\
    Forall (fun t => 0 <= start_index t /\ end_index t <= T /\
                     total_all_threads t = T) tasks.
Proof.
  intros HT HN.
  assert (Hm : main_tasks T N t0
               = Ok (submit_args T (ceil_div T N) t0 <$> py_range N))
    by (apply main_tasks_ok; lia).
  eexists. split; [exact Hm|].
  split; [apply (rows_due_total T N t0); [exact HT|lia|exact Hm]|].
  pose proof (ceil_div_nonneg T N ltac:(lia) ltac:(lia)) as Hpt.
  apply Forall_fmap, Forall_forall. intros i Hi.
  unfold py_range in Hi. apply list_elem_of_fmap in Hi as (k & -> & _).
  cbn [submit_args start_index end_index total_all_threads compose].
  split; [nia|]. split; [lia|reflexivity].
Qed.

Lemma submitted_rows_add_up_witness :
  0 <= 5 < 2 ^ 53 /\ 1 <= 4 < 2 ^ 53 /\
  exists tasks,
    main_tasks 5 4 0 = Ok tasks /\
    sumZ (rows_due tasks) = 5 /\
    Forall (fun t => 0 <= start_index t /\ end_index t <= 5 /\
                     total_all_threads t = 5) tasks.
Proof.
  split; [split; [lia|reflexivity]|]. split; [split; [lia|reflexivity]|].
  apply (submitted_rows_add_up 5 4 0); split; first [lia|reflexivity].
Defined.

(** X3.  For [0 <= TOTAL_RECORDS < 2^53] and [1 <= THREADS < 2^53] the
    ranges cut [[0, TOTAL_RECORDS)] into consecutive pieces exactly when
    the last worker's range starts at or before [TOTAL_RECORDS], that is
    when [(THREADS - 1) * per_thread <= TOTAL_RECORDS]; the sizes then add
    up to [TOTAL_RECORDS]. *)
Theorem ranges_partition_iff (T N : Z) (t0 : Q) (tasks : list Task) :
  0 <= T < 2 ^ 53 -> 1 <= N < 2 ^ 53 -> main_tasks T N t0 = Ok tasks ->
  per_thread T N = Ok (ceil_div T N) /\
  (partitions T tasks <-> (N - 1) * ceil_div T N <= T) /\
  (partitions T tasks -> sumZ (range_sizes tasks) = T).
Proof.
  intros HT HN Hm. split; [apply per_thread_exact; lia|]. split; [split|].
  - apply (last_start_fits_of_partition T N t0); first [assumption|lia].
  - intros Hfit.
    apply (ranges_partition_when_starts_fit T N t0 tasks); assumption.
  - intros Hp.
    apply (ranges_partition_when_starts_fit T N t0 tasks); try assumption.
    apply (last_start_fits_of_partition T N t0 tasks); first [assumption|lia].
Qed.

Lemma ranges_partition_iff_witness :
  0 <= 17 < 2 ^ 53 /\ 1 <= 4 < 2 ^ 53 /\
  main_tasks 17 4 0 = Ok (submit_args 17 5 0 <$> py_range 4) /\
  per_thread 17 4 = Ok (ceil_div 17 4) /\
  (partitions 17 (submit_args 17 5 0 <$> py_range 4)
   <-> (4 - 1) * ceil_div 17 4 <= 17) /\
  (partitions 17 (submit_args 17 5 0 <$> py_range 4) ->
   sumZ (range_sizes (submit_args 17 5 0 <$> py_range 4)) = 17).
Proof.
  split; [split; [lia|reflexivity]|]. split; [split; [lia|reflexivity]|].
  split; [reflexivity|].
  apply (ranges_partition_iff 17 4 0);
    [split; [lia|reflexivity]|split; [lia|reflexivity]|reflexivity].
Defined.

(** X4.  With at least [THREADS * (THREADS - 1)] records and fewer than
    [2^53], which the default configuration (17,000,000 records,
    4 threads) meets, the ranges always partition the indices. *)
Theorem ranges_partition_when_many_records (T N : Z) (t0 : Q) :
  1 <= N -> N * (N - 1) <= T -> T < 2 ^ 53 ->
  exists tasks,
    main_tasks T N t0 = Ok tasks /\
    partitions T tasks /\
    sumZ (range_sizes tasks) = T /\
    Forall (fun t => 0 <= total_of t) tasks.
Proof.
  intros HN Hmany HT.
  assert (HT0 : 0 <= T) by nia.
  assert (HN53 : N < 2 ^ 53) by nia.
  assert (Hm : main_tasks T N t0
               = Ok (submit_args T (ceil_div T N) t0 <$> py_range N))
    by (apply main_tasks_ok; lia).
  eexists. split; [exact Hm|].
  pose proof (ceil_div_bounds T N ltac:(lia)) as Hb.
  assert (Hfit : (N - 1) * ceil_div T N <= T) by nia.
  destruct (ranges_partition_when_starts_fit T N t0 _ ltac:(lia) ltac:(lia)
              Hfit Hm) as [Hp Hs].
  split; [exact Hp|]. split; [exact Hs|].
  destruct Hp as [Hc _]. apply chained_ordered in Hc.
  eapply Forall_impl; [exact Hc|]. intros t Ht. unfold total_of.
  cbn beta in Ht. lia.
Qed.

Lemma ranges_partition_when_many_records_witness :
  1 <= 4 /\ 4 * (4 - 1) <= 17000000 /\ 17000000 < 2 ^ 53 /\
  exists tasks,
    main_tasks 17000000 4 0 = Ok tasks /\
    partitions 17000000 tasks /\
    sumZ (range_sizes tasks) = 17000000 /\
    Forall (fun t => 0 <= total_of t) tasks.
Proof.
  split; [lia|]. split; [lia|]. split; [reflexivity|].
  apply (ranges_partition_when_many_records 17000000 4 0);
    [lia|lia|reflexivity].
Defined.

(** X9.  Lines 70-98, the remaining fields.  The payload has
    [tinIssuerCountry = idIssuerCountry = "US"], an [idType] between 1
    and 9, and the first name is the first thing drawn, the last name the
    second. *)
Theorem generate_msg_other_fields (lib : Library) (u l : string) (t : Z) (r : Rng) :
  let m := fst (generate_msg_dict lib u l t r) in
  tinIssuerCountry m = "US"%string /\
  idIssuerCountry m = "US"%string /\
  1 <= idType m <= 9 /\
  individualFirstName m = fst (fake_first_name lib r) /\
  entityIndividualLastName m
  = fst (fake_last_name lib (snd (fake_first_name lib r))).
Proof.
  destruct (generate_msg_dict lib u l t r) as [m r'] eqn:Em. cbn [fst].
  revert Em. unfold generate_msg_dict, gbind, gret.
  repeat (next_draw; cbn [fst snd]). intros [= <- _].
  cbn [tinIssuerCountry idIssuerCountry idType individualFirstName
       entityIndividualLastName fst snd].
  repeat match goal with E : randint _ _ _ = _ |- _ => in_range E; clear E end.
  repeat split; try reflexivity; lia.
Qed.

(* ===================================================================== *)
(** * Location tags and rows *)
(* ===================================================================== *)

Lemma zeros_length (k : nat) : String.length (zeros k) = k.
Proof. induction k as [|k IH]; cbn [zeros String.length]; congruence. Qed.

Lemma zeros_all_digits (k : nat) : all_digits (zeros k) = true.
Proof. induction k as [|k IH]; cbn [zeros all_digits]; [reflexivity|exact IH]. Qed.

Lemma zeros_value (k : nat) (s : string) :
  digits_value (zeros k ++ s) 0 = digits_value s 0.
Proof. induction k as [|k IH]; cbn [zeros append digits_value]; [reflexivity|exact IH]. Qed.

Lemma str_digits_grows (fuel : nat) :
  forall (n : Z) (acc : string),
    (String.length acc <= String.length (str_digits fuel n acc))%nat.
Proof.
  induction fuel as [|fuel IH]; intros n acc; cbn [str_digits]; [lia|].
  destruct (n <? 10); [cbn [String.length]; lia|].
  etransitivity; [|apply IH]. cbn [String.length]. lia.
Qed.

(** A number below 10000 is padded to exactly four digits that still
    denote it. *)
Lemma format_04d_small (n : Z) :
  0 <= n < 10000 ->
  String.length (format_04d n) = 4%nat /\
  all_digits (format_04d n) = true /\
  numeric_value (format_04d n) = Some n.
Proof.
  intros Hn. unfold format_04d. destruct (Z.ltb_spec n 0); [lia|].
  assert (Hstr : str n = str_nonneg n).
  { unfold str. destruct (Z.ltb_spec n 0); [lia|reflexivity]. }
  rewrite <- Hstr.
  assert (Hcase : exists k : nat,
             (k < 4)%nat /\ String.length (str n) = S k /\
             all_digits (str n) = true /\ numeric_value (str n) = Some n).
  { destruct (Z.eq_dec n 0) as [->|Hn0];
      [exists 0%nat; split; [lia|by vm_compute]|].
    destruct (Z.lt_ge_cases n 10);
      [exists 0%nat; destruct (str_in_range 0 1 9 n) as (?&?&?&_);
         [by vm_compute|by vm_compute|lia|auto with lia]|].
    destruct (Z.lt_ge_cases n 100);
      [exists 1%nat; destruct (str_in_range 1 10 99 n) as (?&?&?&_);
         [by vm_compute|by vm_compute|lia|auto with lia]|].
    destruct (Z.lt_ge_cases n 1000);
      [exists 2%nat; destruct (str_in_range 2 100 999 n) as (?&?&?&_);
         [by vm_compute|by vm_compute|lia|auto with lia]|].
    exists 3%nat; destruct (str_in_range 3 1000 9999 n) as (?&?&?&_);
      [by vm_compute|by vm_compute|lia|auto with lia]. }
  destruct Hcase as (k & Hk & Hlen & Hall & Hval).
  rewrite Hlen. split; [rewrite string_length_app, zeros_length, Hlen; lia|].
  split; [rewrite all_digits_app, zeros_all_digits, Hall; reflexivity|].
  unfold numeric_value in *.
  destruct (str n) as [|c s] eqn:Es; [discriminate Hval|].
  rewrite Hall in Hval.
  assert (Hne : (zeros (4 - S k) ++ String c s)%string <> EmptyString).
  { destruct (zeros (4 - S k)); discriminate. }
  destruct (zeros (4 - S k) ++ String c s)%string as [|c' s'] eqn:Ez;
    [congruence|].
  rewrite <- Ez, all_digits_app, zeros_all_digits, Hall, zeros_value.
  exact Hval.
Qed.

(** From 10000 on the number is printed unpadded and is longer than four
    characters. *)
Lemma format_04d_large (n : Z) :
  10000 <= n ->
  format_04d n = str n /\ (5 <= String.length (format_04d n))%nat.
Proof.
  intros Hn. unfold format_04d, str. destruct (Z.ltb_spec n 0); [lia|].
  assert (Hlog : 13 <= Z.log2 n).
  { apply Z.log2_le_pow2; [lia|]. change (2 ^ 13) with 8192. lia. }
  assert (Hlen : (5 <= String.length (str_nonneg n))%nat).
  { unfold str_nonneg.
    destruct (Z.to_nat (Z.log2 n)) as [|[|[|[|f]]]] eqn:Ef; try lia.
    assert (H1 : 1000 <= n / 10) by (apply Z.div_le_lower_bound; lia).
    assert (H2 : 100 <= n / 10 / 10) by (apply Z.div_le_lower_bound; lia).
    assert (H3 : 10 <= n / 10 / 10 / 10) by (apply Z.div_le_lower_bound; lia).
    cbn [str_digits].
    destruct (Z.ltb_spec n 10); [lia|].
    destruct (Z.ltb_spec (n / 10) 10); [lia|].
    destruct (Z.ltb_spec (n / 10 / 10) 10); [lia|].
    destruct (Z.ltb_spec (n / 10 / 10 / 10) 10); [lia|].
    destruct (_ <? 10); [cbn [String.length]; lia|].
    match goal with |- (_ <= String.length (str_digits ?f ?m ?acc))%nat =>
      pose proof (str_digits_grows f m acc) as Hg end.
    cbn [String.length] in Hg. lia. }
  split; [|].
  - replace (4 - String.length (str_nonneg n))%nat with 0%nat by lia.
    reflexivity.
  - replace (4 - String.length (str_nonneg n))%nat with 0%nat by lia.
    exact Hlen.
Qed.

(** X5.  Line 127.  For a worker id from 0 to 9999 the location tag is
    ["ARCC"] followed by exactly four decimal digits that denote the id,
    eight characters in all. *)
Theorem loc_detail_fixed_width (t : Task) :
  0 <= worker_id t < 10000 ->
  exists d,
    loc_detail_of t = ("ARCC" ++ d)%string /\
    String.length d = 4%nat /\
    all_digits d = true /\
    numeric_value d = Some (worker_id t) /\
    String.length (loc_detail_of t) = 8%nat.
Proof.
  intros Hid. destruct (format_04d_small (worker_id t) Hid) as (Hl & Ha & Hv).
  exists (format_04d (worker_id t)). unfold loc_detail_of.
  rewrite string_length_app, Hl. auto.
Qed.

Lemma loc_detail_fixed_width_witness :
  0 <= worker_id (mkTask 7 0 5 17 0) < 10000 /\
  exists d,
    loc_detail_of (mkTask 7 0 5 17 0) = ("ARCC" ++ d)%string /\
    String.length d = 4%nat /\
    all_digits d = true /\
    numeric_value d = Some (worker_id (mkTask 7 0 5 17 0)) /\
    String.length (loc_detail_of (mkTask 7 0 5 17 0)) = 8%nat.
Proof.
  split; [cbn [worker_id]; lia|].
  apply (loc_detail_fixed_width (mkTask 7 0 5 17 0)). cbn [worker_id]. lia.
Defined.

(** X6.  From the 10000th worker on the tag is no longer eight characters
    wide: the id is written in full after ["ARCC"]. *)
Theorem loc_detail_widens (t : Task) :
  10000 <= worker_id t ->
  loc_detail_of t = ("ARCC" ++ str (worker_id t))%string /\
  (9 <= String.length (loc_detail_of t))%nat.
Proof.
  intros Hid. destruct (format_04d_large (worker_id t) Hid) as (He & Hl).
  unfold loc_detail_of. rewrite string_length_app. rewrite <- He.
  split; [reflexivity|]. cbn [String.length]. lia.
Qed.

Lemma loc_detail_widens_witness :
  10000 <= worker_id (mkTask 12345 0 5 17 0) /\
  loc_detail_of (mkTask 12345 0 5 17 0)
  = ("ARCC" ++ str (worker_id (mkTask 12345 0 5 17 0)))%string /\
  (9 <= String.length (loc_detail_of (mkTask 12345 0 5 17 0)))%nat.
Proof.
  split; [cbn [worker_id]; lia|].
  apply (loc_detail_widens (mkTask 12345 0 5 17 0)). cbn [worker_id]. lia.
Defined.

Lemma string_app_inv_head (a b c : string) :
  (a ++ b = a ++ c)%string -> b = c.
Proof.
  induction a as [|x a IH]; cbn [append]; [auto|].
  intros [= H]. exact (IH H).
Qed.

(** X7.  With at most 9999 threads the workers started by [main] carry
    pairwise different tags. *)
Theorem loc_details_distinct (T N : Z) (t0 : Q) (tasks : list Task) :
  N <= 9999 -> main_tasks T N t0 = Ok tasks ->
  NoDup (loc_detail_of <$> tasks).
Proof.
  intros HN Hm.
  destruct (main_tasks_shape T N t0 tasks Hm) as (Hpos & pt & _ & ->).
  unfold py_range. rewrite <- !list_fmap_compose.
  apply NoDup_fmap_2_strong; [|apply NoDup_seq].
  intros i j Hi Hj Heq. apply elem_of_seq in Hi, Hj.
  cbv beta iota zeta delta [compose submit_args loc_detail_of worker_id] in Heq.
  apply string_app_inv_head in Heq.
  destruct (format_04d_small (Z.of_nat i + 1) ltac:(lia)) as (_ & _ & Hvi).
  destruct (format_04d_small (Z.of_nat j + 1) ltac:(lia)) as (_ & _ & Hvj).
  rewrite Heq, Hvj in Hvi. injection Hvi as Hij. lia.
Qed.

Lemma loc_details_distinct_witness :
  4 <= 9999 /\
  main_tasks 17 4 0 = Ok (submit_args 17 5 0 <$> py_range 4) /\
  NoDup (loc_detail_of <$> (submit_args 17 5 0 <$> py_range 4)).
Proof.
  split; [lia|]. split; [reflexivity|].
  apply (loc_details_distinct 17 4 0); [lia|reflexivity].
Defined.

(** The payload carries the three arguments of [generate_msg]. *)
Lemma generate_msg_dict_inputs (lib : Library) (u l : string) (t : Z) (r : Rng) :
  let m := fst (generate_msg_dict lib u l t r) in
  uid m = u /\ location m = l /\ ts m = t.
Proof.
  destruct (generate_msg_dict lib u l t r) as [m r'] eqn:Em. cbn [fst].
  revert Em. unfold generate_msg_dict, gbind, gret.
  repeat next_draw. intros [= <- _]. cbn [uid location ts]. auto.
Qed.

Lemma make_row_well_formed (start_ts : Z) (lib : Library) (wid : Z)
    (loc : string) (r : Rng) :
  row_well_formed start_ts lib wid loc (fst (make_row start_ts lib wid loc r)).
Proof.
  unfold make_row. unfold gbind at 1.
  destruct (uuid4_str lib r) as [u r1]. unfold gbind at 1.
  destruct (randint 0 10000000 r1) as [j r2] eqn:Ej. in_range Ej.
  unfold gbind at 1. unfold generate_msg. unfold gbind at 1.
  pose proof (generate_msg_dict_inputs lib u loc (start_ts + j) r2) as Hm.
  destruct (generate_msg_dict lib u loc (start_ts + j) r2) as [m r3].
  cbn [fst] in Hm. unfold gret at 1. unfold gbind at 1.
  destruct (randint 7000 999999 r3) as [x r4] eqn:Ex. in_range Ex.
  unfold gret. cbn [fst]. unfold row_well_formed.
  cbn [col_channel_id col_loc_detail col_action col_nil_action col_nil_id
       col_txn_id col_ts col_msg col_unique_id].
  repeat (split; [reflexivity || lia|]).
  exists m. tauto.
Qed.

Lemma for_append_Forall {A : Type} (P : A -> Prop) (g : Gen A) :
  (forall r, P (fst (g r))) ->
  forall (idx : list Z) (batch : list A) (r : Rng),
    Forall P batch -> Forall P (fst (for_append idx g batch r)).
Proof.
  intros Hg. induction idx as [|i idx IH]; intros batch r Hb;
    cbn [for_append]; [exact Hb|].
  unfold gbind. pose proof (Hg r) as Hx. destruct (g r) as [x r'].
  apply IH. apply Forall_app. split; [exact Hb|]. constructor; [exact Hx|constructor].
Qed.

(** X8.  Lines 132-146.  A batch holds [min(BATCH_SIZE, total - inserted)]
    tuples, none when that number is not positive, and every tuple carries
    the worker's id and tag, the constants 10, 12 and NULL, a transaction
    reference in [[7000, 999999]], a timestamp at most 10,000,000 ms
    after [start_ts], and a payload with the tuple's own identifier, tag
    and timestamp. *)
Theorem build_batch_rows (BATCH_SIZE start_ts : Z) (lib : Library)
    (wid : Z) (loc : string) (total inserted : Z) (r : Rng) :
  let batch := fst (build_batch BATCH_SIZE start_ts lib wid loc total inserted r) in
  len batch = Z.max 0 (Z.min BATCH_SIZE (total - inserted)) /\
  Forall (row_well_formed start_ts lib wid loc) batch.
Proof.
  split; [apply build_batch_len|].
  unfold build_batch. apply for_append_Forall; [|constructor].
  intros r'. apply make_row_well_formed.
Qed.

(* ===================================================================== *)
(** * More on the worker run on its own *)
(* ===================================================================== *)






(** X12.  Called with [total_all_threads = 0] on a non-empty range, the worker
    commits its first batch and adds it to [global_inserted], then fails
    on the percentage with [ZeroDivisionError] before printing
    anything. *)
Theorem insert_worker_zero_total
    (BATCH_SIZE start_ts : Z) (lib : Library) (fuel : nat)
    (wid first_index last_index : Z) (t0 : Q)
    (clock : nat -> Q) (w : World) :
  first_index < last_index ->
  exists w' batch,
    insert_worker BATCH_SIZE start_ts lib (S fuel) wid first_index last_index
                  0 t0 clock w
    = Some (Raise ZeroDivisionError, w') /\
    db w' = db w ++ [batch] /\
    len batch = Z.max 0 (Z.min BATCH_SIZE (last_index - first_index)) /\
    global_inserted w' = global_inserted w + len batch /\
    stdout w' = stdout w.
Proof.
  intros Hrange. unfold insert_worker. cbn [worker_loop].
  destruct (Z.ltb_spec 0 (last_index - first_index)); [|lia].
  pose proof (build_batch_len BATCH_SIZE start_ts lib wid
                ("ARCC" ++ format_04d wid)%string
                (last_index - first_index) 0 (rng w)) as Hlen.
  destruct (build_batch BATCH_SIZE start_ts lib wid
              ("ARCC" ++ format_04d wid)%string
              (last_index - first_index) 0 (rng w)) as [batch r].
  cbn [fst] in Hlen. rewrite Z.sub_0_r in Hlen.
  rewrite progress_snapshot_zero_total.
  eexists _, batch. split; [reflexivity|].
  unfold set_global_inserted, commit_batch.
  cbn [db global_inserted stdout]. auto.
Qed.

Lemma insert_worker_zero_total_witness :
  0 < 5 /\
  exists w' batch,
    insert_worker 2 1000 sample_lib 1 1 0 5 0 0 sample_clock sample_world
    = Some (Raise ZeroDivisionError, w') /\
    db w' = db sample_world ++ [batch] /\
    len batch = Z.max 0 (Z.min 2 (5 - 0)) /\
    global_inserted w' = global_inserted sample_world + len batch /\
    stdout w' = stdout sample_world.
Proof.
  split; [lia|].
  apply (insert_worker_zero_total 2 1000 sample_lib 0 1 0 5 0
           sample_clock sample_world). lia.
Defined.

(* ===================================================================== *)
(** * The pool: what every interleaving preserves *)
(* ===================================================================== *)

Section PoolInvariant.

Context (BATCH_SIZE start_ts : Z) (lib : Library).

Lemma sumZ_insert {A : Type} (f : A -> Z) (l : list A) (i : nat) (x y : A) :
  l !! i = Some x ->
  sumZ (f <$> <[i := y]> l) = sumZ (f <$> l) - f x + f y.
Proof.
  revert i. induction l as [|a l IH]; intros [|i] Hi; try discriminate.
  - injection Hi as ->. change (<[0%nat := y]> (x :: l)) with (y :: l).
    rewrite !fmap_cons. cbn [sumZ]. lia.
  - change (l !! i = Some x) in Hi.
    change (<[S i := y]> (a :: l)) with (a :: <[i := y]> l).
    rewrite !fmap_cons. cbn [sumZ]. rewrite (IH i Hi). lia.
Qed.

Lemma sumZ_batch_sizes_snoc (d : list (list Row)) (b : list Row) :
  sumZ (batch_sizes (d ++ [b])) = sumZ (batch_sizes d) + len b.
Proof. rewrite batch_sizes_snoc, sumZ_app. cbn [sumZ]. lia. Qed.

(** Replacing one thread and the shared state keeps the invariant when
    the lock, the counter and the table change in step with the thread. *)
Lemma pool_inv_update (p : Pool) (w' : World) (lock' : option nat)
    (tid : nat) (th th' : Thread) :
  pool_inv p ->
  threads p !! tid = Some th ->
  thread_ok th' ->
  ((lock' = progress_lock p /\ (critical (pc th) <-> critical (pc th'))) \/
   (progress_lock p = None /\ lock' = Some tid /\ critical (pc th')) \/
   (critical (pc th) /\ lock' = None /\ ~ critical (pc th'))) ->
  (global_inserted w' = global_inserted (world p) \/ critical (pc th)) ->
  (forall n tmp, pc th' = AtStore n tmp -> tmp = global_inserted w') ->
  global_inserted w'
  = global_inserted (world p) + (inserted th' - inserted th)
    - (pending (pc th') - pending (pc th)) ->
  sumZ (batch_sizes (db w'))
  = sumZ (batch_sizes (db (world p))) + (inserted th' - inserted th) ->
  pool_inv (mkPool w' lock' (<[tid := th']> (threads p))).
Proof.
  intros [Hh Hd Hr Hc Hrows Ht] Eth Hok Hlock Hg Hst Hcnt Hdb.
  assert (Hlen : (tid < length (threads p))%nat)
    by (eapply lookup_lt_Some; exact Eth).
  constructor; cbn [threads progress_lock world].
  - intros i x Hi Hcrit. apply list_lookup_insert_Some in Hi.
    destruct Hi as [(<- & <- & _)|(Hne & Hi)].
    + destruct Hlock as [(-> & Hiff)|[(_ & -> & _)|(_ & _ & Hn)]].
      * apply (Hh tid th Eth). tauto.
      * reflexivity.
      * contradiction.
    + pose proof (Hh i x Hi Hcrit) as Hli.
      destruct Hlock as [(-> & _)|[(Hnone & _)|(Hc0 & _)]].
      * exact Hli.
      * congruence.
      * pose proof (Hh tid th Eth Hc0). congruence.
  - intros i Hi.
    destruct Hlock as [(-> & Hiff)|[(_ & -> & Hc1)|(_ & -> & _)]].
    + destruct (Hd i Hi) as (x & Hx & Hcx).
      destruct (decide (i = tid)) as [->|Hne].
      * exists th'. rewrite list_lookup_insert_eq by exact Hlen.
        split; [reflexivity|]. assert (x = th) by congruence. subst x. tauto.
      * exists x. rewrite list_lookup_insert_ne by congruence. auto.
    + injection Hi as <-. exists th'.
      rewrite list_lookup_insert_eq by exact Hlen. auto.
    + discriminate.
  - intros i x n tmp Hi Hpc. apply list_lookup_insert_Some in Hi.
    destruct Hi as [(<- & <- & _)|(Hne & Hi)].
    + exact (Hst n tmp Hpc).
    + pose proof (Hr i x n tmp Hi Hpc) as Hold.
      destruct Hg as [->|Hc0]; [exact Hold|].
      assert (Hcx : critical (pc x)) by (rewrite Hpc; exact I).
      pose proof (Hh i x Hi Hcx). pose proof (Hh tid th Eth Hc0). congruence.
  - rewrite !(sumZ_insert _ _ _ _ _ Eth). lia.
  - rewrite (sumZ_insert _ _ _ _ _ Eth). lia.
  - apply Forall_insert; assumption.
Qed.

Ltac thread_ok_tac Hstatic :=
  unfold thread_ok; cbn [inserted pc task pending];
  repeat split; first [lia | exact Hstatic | tauto].

Lemma step_inv (tid : nat) (now : Q) (p : Pool) :
  pool_inv p -> pool_inv (step BATCH_SIZE start_ts lib tid now p).
Proof.
  intros Hinv. unfold step.
  destruct (threads p !! tid) as [th|] eqn:Eth; [|exact Hinv].
  pose proof (inv_threads p Hinv) as Hall.
  rewrite Forall_lookup in Hall. pose proof (Hall tid th Eth) as Hok.
  destruct Hok as (Hins & Hpend & Hstatic & Hpc).
  destruct (pc th) as [|n|n|n tmp| | |ret|e] eqn:Epc; cbn [pending] in *.
  - (* AtLoop *)
    destruct (Z.ltb_spec (inserted th) (total_of (task th))) as [Hlt|Hge].
    + pose proof (build_batch_len BATCH_SIZE start_ts lib (worker_id (task th))
                    (loc_detail_of (task th)) (total_of (task th))
                    (inserted th) (rng (world p))) as Hlen.
      destruct (build_batch BATCH_SIZE start_ts lib (worker_id (task th))
                  (loc_detail_of (task th)) (total_of (task th))
                  (inserted th) (rng (world p))) as [batch r].
      cbn [fst] in Hlen.
      apply (pool_inv_update p _ _ tid th _ Hinv Eth).
      * thread_ok_tac Hstatic.
      * left. rewrite Epc. cbn [pc critical]. tauto.
      * left. reflexivity.
      * intros n tmp H. discriminate H.
      * rewrite Epc. cbn [commit_batch global_inserted inserted pc pending]. lia.
      * cbn [commit_batch db inserted]. rewrite sumZ_batch_sizes_snoc. lia.
    + apply (pool_inv_update p _ _ tid th _ Hinv Eth).
      * thread_ok_tac Hstatic.
      * left. rewrite Epc. cbn [pc critical]. tauto.
      * left. reflexivity.
      * intros n tmp H. discriminate H.
      * rewrite Epc. cbn [print global_inserted inserted pc pending]. lia.
      * cbn [print db inserted]. lia.
  - (* AtAcquire *)
    destruct (progress_lock p) as [holder|] eqn:Elock; [exact Hinv|].
    apply (pool_inv_update p _ _ tid th _ Hinv Eth).
    * thread_ok_tac Hstatic.
    * right. left. cbn [pc critical]. auto.
    * left. reflexivity.
    * intros n' tmp H. discriminate H.
    * rewrite Epc. cbn [inserted pc pending]. lia.
    * cbn [inserted]. lia.
  - (* AtLoad *)
    unfold set_thread.
    replace (world p) with (world p) by reflexivity.
    apply (pool_inv_update p _ _ tid th _ Hinv Eth).
    * thread_ok_tac Hstatic.
    * left. rewrite Epc. cbn [pc critical]. tauto.
    * left. reflexivity.
    * intros n' tmp [= _ <-]. reflexivity.
    * rewrite Epc. cbn [inserted pc pending]. lia.
    * cbn [inserted]. lia.
  - (* AtStore *)
    pose proof (inv_read p Hinv tid th n tmp Eth Epc) as Htmp.
    apply (pool_inv_update p _ _ tid th _ Hinv Eth).
    * thread_ok_tac Hstatic.
    * left. rewrite Epc. cbn [pc critical]. tauto.
    * right. rewrite Epc. exact I.
    * intros n' tmp' H. discriminate H.
    * rewrite Epc. cbn [set_global_inserted global_inserted inserted pc pending]. lia.
    * cbn [set_global_inserted db inserted]. lia.
  - (* AtReport *)
    destruct (progress_snapshot_defined (worker_id (task th))
                (global_inserted (world p)) (total_all_threads (task th))
                (t0 (task th)) now (Hstatic Hpc)) as [s Hs].
    rewrite Hs.
    apply (pool_inv_update p _ _ tid th _ Hinv Eth).
    * thread_ok_tac Hstatic.
    * left. rewrite Epc. cbn [pc critical]. tauto.
    * left. reflexivity.
    * intros n' tmp' H. discriminate H.
    * rewrite Epc. cbn [print global_inserted inserted pc pending]. lia.
    * cbn [print db inserted]. lia.
  - (* AtRelease *)
    apply (pool_inv_update p _ _ tid th _ Hinv Eth).
    * thread_ok_tac Hstatic.
    * right. right. rewrite Epc. cbn [pc critical]. tauto.
    * left. reflexivity.
    * intros n' tmp' H. discriminate H.
    * rewrite Epc. cbn [inserted pc pending]. lia.
    * cbn [inserted]. lia.
  - exact Hinv.
  - exact Hinv.
Qed.

Lemma run_inv (sched : list (nat * Q)) :
  forall p, pool_inv p -> pool_inv (run BATCH_SIZE start_ts lib sched p).
Proof.
  induction sched as [|[tid now] sched IH]; intros p Hp; [exact Hp|].
  cbn [run fold_left fst snd]. apply IH. apply step_inv. exact Hp.
Qed.

End PoolInvariant.

Section PoolFromMain.

Context (BATCH_SIZE start_ts : Z) (lib : Library).

Lemma sumZ_const_zero {A : Type} (f : A -> Z) (l : list A) :
  (forall x, f x = 0) -> sumZ (f <$> l) = 0.
Proof.
  intros Hf. induction l as [|a l IH]; [reflexivity|].
  rewrite fmap_cons. cbn [sumZ]. rewrite Hf, IH. reflexivity.
Qed.

Lemma sumZ_le_pointwise {A : Type} (f g : A -> Z) (l : list A) :
  Forall (fun x => f x <= g x) l -> sumZ (f <$> l) <= sumZ (g <$> l).
Proof.
  induction 1 as [|a l Ha _ IH]; [reflexivity|].
  rewrite !fmap_cons. cbn [sumZ]. lia.
Qed.

Lemma sumZ_eq_pointwise {A : Type} (f g : A -> Z) (l : list A) :
  Forall (fun x => f x = g x) l -> sumZ (f <$> l) = sumZ (g <$> l).
Proof.
  induction 1 as [|a l Ha _ IH]; [reflexivity|].
  rewrite !fmap_cons. cbn [sumZ]. lia.
Qed.

(** A range handed out by [main] holds rows only if there are records at
    all. *)
Lemma main_tasks_static (T N : Z) (t0 : Q) (tasks : list Task) :
  main_tasks T N t0 = Ok tasks ->
  Forall (fun t => total_all_threads t = T /\ (0 < total_of t -> 0 < T)) tasks.
Proof.
  intros Hm.
  destruct (main_tasks_shape T N t0 tasks Hm) as (HN & pt & Hpt & ->).
  destruct (math_ceil_truediv_sign T N pt ltac:(lia) Hpt) as [_ Hneg].
  apply Forall_fmap, Forall_forall. intros i Hi.
  unfold py_range in Hi. apply list_elem_of_fmap in Hi as (k & -> & _).
  unfold total_of. cbn [compose submit_args start_index end_index total_all_threads].
  split; [reflexivity|]. intros Hpos.
  destruct (Z.le_gt_cases T 0) as [Hle|Hpos']; [|exact Hpos'].
  exfalso. specialize (Hneg Hle). nia.
Qed.

Lemma main_pool (T N : Z) (t0 : Q) (r : Rng) (p : Pool) :
  main T N t0 r = Ok p ->
  exists tasks,
    main_tasks T N t0 = Ok tasks /\
    p = mkPool (mkWorld r [] 0 []) None (spawn <$> tasks).
Proof.
  unfold main. destruct (main_tasks T N t0) as [tasks|e]; cbn [rbind];
    [|discriminate].
  intros [= <-]. eauto.
Qed.

Lemma main_inv (T N : Z) (t0 : Q) (r : Rng) (p : Pool) :
  main T N t0 r = Ok p -> pool_inv p.
Proof.
  intros Hm. destruct (main_pool T N t0 r p Hm) as (tasks & Ht & ->).
  pose proof (main_tasks_static T N t0 tasks Ht) as Hstatic.
  constructor; cbn [threads progress_lock world global_inserted db].
  - intros i th Hi Hc. rewrite list_lookup_fmap in Hi.
    destruct (tasks !! i); [|discriminate]. injection Hi as <-.
    destruct Hc.
  - intros i Hi. discriminate Hi.
  - intros i th n tmp Hi Hpc. rewrite list_lookup_fmap in Hi.
    destruct (tasks !! i); [|discriminate]. injection Hi as <-.
    discriminate Hpc.
  - rewrite <- !list_fmap_compose.
    rewrite !sumZ_const_zero by (intros; reflexivity). reflexivity.
  - rewrite <- list_fmap_compose.
    rewrite sumZ_const_zero by (intros; reflexivity). reflexivity.
  - apply Forall_fmap. eapply Forall_impl; [exact Hstatic|].
    intros t [Hall Hpos]. unfold thread_ok, compose, spawn.
    cbn [inserted pc task pending].
    repeat split; first [lia | tauto | idtac];
      try (intros Ht0; specialize (Hpos Ht0); lia).
Qed.

(** The tasks of the threads never change. *)
Lemma step_tasks (tid : nat) (now : Q) (p : Pool) :
  task <$> threads (step BATCH_SIZE start_ts lib tid now p)
  = task <$> threads p.
Proof.
  unfold step. destruct (threads p !! tid) as [th|] eqn:Eth; [|reflexivity].
  assert (Hid : forall (x : Z) (c : Pc),
             task <$> <[tid := mkThread (task th) x c]> (threads p)
             = task <$> threads p).
  { intros x c. rewrite list_fmap_insert. cbn [task].
    apply list_insert_id. rewrite list_lookup_fmap, Eth. reflexivity. }
  destruct (pc th); cbn [threads set_thread];
    repeat match goal with
      | |- context [if ?b then _ else _] => destruct b
      | |- context [let '(_, _) := ?x in _] => destruct x
      | |- context [match progress_lock p with _ => _ end] =>
          destruct (progress_lock p)
      | |- context [match progress_snapshot ?a ?b ?c ?d ?e with _ => _ end] =>
          destruct (progress_snapshot a b c d e)
      end; cbn [threads]; auto.
Qed.

Lemma run_tasks (sched : list (nat * Q)) :
  forall p,
    task <$> threads (run BATCH_SIZE start_ts lib sched p) = task <$> threads p.
Proof.
  induction sched as [|[tid now] sched IH]; intros p; [reflexivity|].
  cbn [run fold_left fst snd].
  etransitivity; [apply IH|]. apply step_tasks.
Qed.

Lemma run_app (s1 s2 : list (nat * Q)) (p : Pool) :
  run BATCH_SIZE start_ts lib (s1 ++ s2) p
  = run BATCH_SIZE start_ts lib s2 (run BATCH_SIZE start_ts lib s1 p).
Proof. unfold run. apply fold_left_app. Qed.

End PoolFromMain.

(* ===================================================================== *)
(** * The pool: consequences for every schedule *)
(* ===================================================================== *)

Lemma main_threads_tasks (T N : Z) (t0 : Q) (r : Rng) (p : Pool) :
  main T N t0 r = Ok p -> main_tasks T N t0 = Ok (task <$> threads p).
Proof.
  intros Hm. destruct (main_pool T N t0 r p Hm) as (tasks & Ht & ->).
  cbn [threads]. rewrite <- list_fmap_compose.
  assert (He : task ∘ spawn <$> tasks = tasks).
  { clear. induction tasks as [|t tasks IH]; [reflexivity|].
    rewrite fmap_cons, IH. reflexivity. }
  rewrite He. exact Ht.
Qed.

(** X14.  The [with progress_lock] block of lines 153-164 is mutually
    exclusive in every state a pool started by [main] can reach: two
    threads inside it are the same thread, and the lock is held exactly
    when some thread is inside, by that thread, so a finished or failed
    thread never keeps it. *)
Theorem pool_mutual_exclusion
    (BATCH_SIZE start_ts : Z) (lib : Library) (T N : Z) (t0 : Q) (r : Rng)
    (p0 : Pool) (sched : list (nat * Q)) :
  main T N t0 r = Ok p0 ->
  let p := run BATCH_SIZE start_ts lib sched p0 in
  (forall i j thi thj,
     threads p !! i = Some thi -> threads p !! j = Some thj ->
     critical (pc thi) -> critical (pc thj) -> i = j) /\
  (forall i, progress_lock p = Some i <->
             exists th, threads p !! i = Some th /\ critical (pc th)).
Proof.
  intros Hm p.
  pose proof (run_inv BATCH_SIZE start_ts lib sched p0 (main_inv T N t0 r p0 Hm))
    as Hinv. fold p in Hinv.
  split.
  - intros i j thi thj Hi Hj Hci Hcj.
    pose proof (inv_holder p Hinv i thi Hi Hci).
    pose proof (inv_holder p Hinv j thj Hj Hcj). congruence.
  - intros i. split; [apply (inv_held p Hinv)|].
    intros (th & Hi & Hc). exact (inv_holder p Hinv i th Hi Hc).
Qed.

Lemma pool_mutual_exclusion_witness :
  main 5 2 0 sample_rng = Ok sample_pool /\
  let p := run 2 1000 sample_lib sample_sched sample_pool in
  (forall i j thi thj,
     threads p !! i = Some thi -> threads p !! j = Some thj ->
     critical (pc thi) -> critical (pc thj) -> i = j) /\
  (forall i, progress_lock p = Some i <->
             exists th, threads p !! i = Some th /\ critical (pc th)).
Proof.
  split; [reflexivity|].
  apply (pool_mutual_exclusion 2 1000 sample_lib 5 2 0 sample_rng
           sample_pool sample_sched). reflexivity.
Defined.

(** X15.  In every reachable state no worker has inserted more rows than its
    range holds, the table holds exactly the rows the workers have
    inserted, never more than [TOTAL_RECORDS], and [global_inserted]
    never runs ahead of the table. *)
Theorem pool_rows_bounded
    (BATCH_SIZE start_ts : Z) (lib : Library) (T N : Z) (t0 : Q) (r : Rng)
    (p0 : Pool) (sched : list (nat * Q)) :
  0 <= T ->
  main T N t0 r = Ok p0 ->
  let p := run BATCH_SIZE start_ts lib sched p0 in
  Forall (fun th => 0 <= inserted th <= Z.max 0 (total_of (task th)))
         (threads p) /\
  sumZ (batch_sizes (db (world p))) = sumZ (inserted <$> threads p) /\
  0 <= global_inserted (world p) <= sumZ (batch_sizes (db (world p))) /\
  sumZ (batch_sizes (db (world p))) <= T.
Proof.
  intros HT Hm p.
  pose proof (run_inv BATCH_SIZE start_ts lib sched p0 (main_inv T N t0 r p0 Hm))
    as Hinv. fold p in Hinv.
  destruct Hinv as [_ _ _ Hc Hrows Hth].
  assert (Hins : Forall (fun th => 0 <= inserted th <= Z.max 0 (total_of (task th)))
                        (threads p)).
  { eapply Forall_impl; [exact Hth|]. intros th Hok. apply Hok. }
  split; [exact Hins|]. split; [exact Hrows|].
  assert (Hp1 : sumZ ((fun th => pending (pc th)) <$> threads p)
                <= sumZ (inserted <$> threads p)).
  { apply sumZ_le_pointwise. eapply Forall_impl; [exact Hth|].
    intros th Hok. apply Hok. }
  assert (Hp0 : 0 <= sumZ ((fun th => pending (pc th)) <$> threads p)).
  { rewrite <- (sumZ_const_zero (fun _ : Thread => 0) (threads p))
      by reflexivity.
    apply sumZ_le_pointwise. eapply Forall_impl; [exact Hth|].
    intros th Hok. apply Hok. }
  split; [rewrite Hc, Hrows; lia|].
  rewrite Hrows.
  transitivity (sumZ ((fun th => Z.max 0 (total_of (task th))) <$> threads p)).
  { apply sumZ_le_pointwise. eapply Forall_impl; [exact Hins|].
    intros th Hb. cbn beta in *. lia. }
  pose proof (run_tasks BATCH_SIZE start_ts lib sched p0) as Htasks.
  fold p in Htasks.
  pose proof (main_threads_tasks T N t0 r p0 Hm) as Hmt.
  rewrite <- Htasks in Hmt.
  destruct (rows_due_main T N t0 _ HT Hmt) as (pt & _ & _ & Hdue).
  unfold rows_due in Hdue. rewrite <- list_fmap_compose in Hdue.
  unfold compose in Hdue. lia.
Qed.

Lemma pool_rows_bounded_witness :
  0 <= 5 /\
  main 5 2 0 sample_rng = Ok sample_pool /\
  let p := run 2 1000 sample_lib sample_sched sample_pool in
  Forall (fun th => 0 <= inserted th <= Z.max 0 (total_of (task th)))
         (threads p) /\
  sumZ (batch_sizes (db (world p))) = sumZ (inserted <$> threads p) /\
  0 <= global_inserted (world p) <= sumZ (batch_sizes (db (world p))) /\
  sumZ (batch_sizes (db (world p))) <= 5.
Proof.
  split; [lia|]. split; [reflexivity|].
  apply (pool_rows_bounded 2 1000 sample_lib 5 2 0 sample_rng
           sample_pool sample_sched); [lia|reflexivity].
Defined.



(** X17.  For [0 <= TOTAL_RECORDS < 2^53] and fewer than [2^53] threads:
    once every worker has returned, under whatever schedule, the lock is
    free, each worker has returned its id with the size of its range, the
    table holds exactly [TOTAL_RECORDS] rows and [global_inserted] reads
    [TOTAL_RECORDS]. *)
Theorem pool_all_returned
    (BATCH_SIZE start_ts : Z) (lib : Library) (T N : Z) (t0 : Q) (r : Rng)
    (p0 : Pool) (sched : list (nat * Q)) :
  0 <= T < 2 ^ 53 ->
  N < 2 ^ 53 ->
  main T N t0 r = Ok p0 ->
  let p := run BATCH_SIZE start_ts lib sched p0 in
  all_returned p ->
  progress_lock p = None /\
  Forall (fun th => pc th = Returned (worker_id (task th), total_of (task th)))
         (threads p) /\
  sumZ (batch_sizes (db (world p))) = T /\
  global_inserted (world p) = T.
Proof.
  intros HT HN Hm p Hall.
  pose proof (run_inv BATCH_SIZE start_ts lib sched p0 (main_inv T N t0 r p0 Hm))
    as Hinv. fold p in Hinv.
  destruct Hinv as [_ Hd _ Hc Hrows Hth].
  unfold all_returned in Hall.
  assert (Hboth : Forall (fun th =>
             pc th = Returned (worker_id (task th), total_of (task th)) /\
             inserted th = Z.max 0 (total_of (task th)) /\
             pending (pc th) = 0) (threads p)).
  { rewrite Forall_forall in Hall, Hth. apply Forall_forall. intros th Hin.
    destruct (Hall th Hin) as [ret Hret].
    destruct (Hth th Hin) as (_ & _ & _ & Hpc). rewrite Hret in Hpc.
    destruct Hpc as [-> Hi]. rewrite Hret. auto. }
  split.
  { destruct (progress_lock p) as [i|] eqn:El; [|reflexivity].
    destruct (Hd i eq_refl) as (th & Hi & Hcrit).
    rewrite Forall_lookup in Hboth. destruct (Hboth i th Hi) as (Hr & _).
    rewrite Hr in Hcrit. destruct Hcrit. }
  split; [eapply Forall_impl; [exact Hboth|]; intros th Hb; apply Hb|].
  assert (Hsum : sumZ (inserted <$> threads p) = T).
  { rewrite (sumZ_eq_pointwise inserted
               (fun th => Z.max 0 (total_of (task th))) (threads p))
      by (eapply Forall_impl; [exact Hboth|]; intros th Hb; apply Hb).
    pose proof (run_tasks BATCH_SIZE start_ts lib sched p0) as Htasks.
    fold p in Htasks.
    pose proof (main_threads_tasks T N t0 r p0 Hm) as Hmt.
    rewrite <- Htasks in Hmt.
    pose proof (rows_due_total T N t0 _ HT HN Hmt) as Hdue.
    unfold rows_due in Hdue. rewrite <- list_fmap_compose in Hdue.
    exact Hdue. }
  split; [rewrite Hrows; exact Hsum|].
  rewrite Hc, Hsum.
  rewrite (sumZ_eq_pointwise (fun th => pending (pc th)) (fun _ => 0) (threads p))
    by (eapply Forall_impl; [exact Hboth|]; intros th Hb; apply Hb).
  rewrite sumZ_const_zero by reflexivity. lia.
Qed.

Lemma sample_full_sched_returns :
  all_returned (run 2 1000 sample_lib sample_full_sched sample_pool).
Proof.
  unfold all_returned.
  assert (H : threads (run 2 1000 sample_lib sample_full_sched sample_pool)
              = [mkThread (mkTask 1 0 3 5 0) 3 (Returned (1, 3));
                 mkThread (mkTask 2 3 5 5 0) 2 (Returned (2, 2))]).
  { vm_compute. reflexivity. }
  rewrite H. repeat constructor; cbn [pc]; eauto.
Defined.

Lemma pool_all_returned_witness :
  0 <= 5 < 2 ^ 53 /\
  2 < 2 ^ 53 /\
  main 5 2 0 sample_rng = Ok sample_pool /\
  let p := run 2 1000 sample_lib sample_full_sched sample_pool in
  all_returned p /\
  progress_lock p = None /\
  Forall (fun th => pc th = Returned (worker_id (task th), total_of (task th)))
         (threads p) /\
  sumZ (batch_sizes (db (world p))) = 5 /\
  global_inserted (world p) = 5.
Proof.
  split; [split; [lia|reflexivity]|]. split; [reflexivity|].
  split; [reflexivity|]. split; [exact sample_full_sched_returns|].
  apply (pool_all_returned 2 1000 sample_lib 5 2 0 sample_rng
           sample_pool sample_full_sched);
    [split; [lia|reflexivity]|reflexivity|reflexivity
    |exact sample_full_sched_returns].
Defined.

(* ===================================================================== *)
(** * The pool: committed batches and completion *)
(* ===================================================================== *)

Section PoolProgress.

Context (BATCH_SIZE start_ts : Z) (lib : Library).

Lemma step_db (tid : nat) (now : Q) (p : Pool) :
  db (world (step BATCH_SIZE start_ts lib tid now p)) = db (world p) \/
  exists th,
    threads p !! tid = Some th /\
    inserted th < total_of (task th) /\
    db (world (step BATCH_SIZE start_ts lib tid now p))
    = db (world p)
      ++ [fst (build_batch BATCH_SIZE start_ts lib (worker_id (task th))
                 (loc_detail_of (task th)) (total_of (task th))
                 (inserted th) (rng (world p)))].
Proof.
  unfold step. destruct (threads p !! tid) as [th|] eqn:Eth; [|left; reflexivity].
  destruct (pc th) eqn:Epc.
  - destruct (Z.ltb_spec (inserted th) (total_of (task th))) as [Hlt|Hge].
    + right. exists th. split; [reflexivity|]. split; [exact Hlt|].
      destruct (build_batch BATCH_SIZE start_ts lib (worker_id (task th))
                  (loc_detail_of (task th)) (total_of (task th))
                  (inserted th) (rng (world p))) as [batch r].
      reflexivity.
    + left. reflexivity.
  - left. destruct (progress_lock p); reflexivity.
  - left. reflexivity.
  - left. reflexivity.
  - left. destruct (progress_snapshot _ _ _ _ _); reflexivity.
  - left. reflexivity.
  - left. reflexivity.
  - left. reflexivity.
Qed.

Lemma run_batches (tasks : list Task) (sched : list (nat * Q)) :
  forall p,
    task <$> threads p = tasks ->
    Forall (batch_from BATCH_SIZE start_ts lib tasks) (db (world p)) ->
    Forall (batch_from BATCH_SIZE start_ts lib tasks)
           (db (world (run BATCH_SIZE start_ts lib sched p))).
Proof.
  induction sched as [|[tid now] sched IH]; intros p Htasks Hdb; [exact Hdb|].
  cbn [run fold_left fst snd]. apply IH.
  { rewrite step_tasks. exact Htasks. }
  destruct (step_db tid now p) as [->|(th & Eth & Hlt & ->)]; [exact Hdb|].
  apply Forall_app. split; [exact Hdb|]. constructor; [|constructor].
  exists (task th). split.
  { rewrite <- Htasks. apply list_elem_of_fmap. exists th.
    split; [reflexivity|]. eapply list_elem_of_lookup_2. exact Eth. }
  pose proof (build_batch_len BATCH_SIZE start_ts lib (worker_id (task th))
                (loc_detail_of (task th)) (total_of (task th)) (inserted th)
                (rng (world p))) as Hlen.
  split.
  { unfold build_batch. apply for_append_Forall; [|constructor].
    intros r'. apply make_row_well_formed. }
  rewrite Hlen. repeat split; lia.
Qed.

Lemma sum_ranks_insert (l : list Thread) (i : nat) (x y : Thread) :
  l !! i = Some x ->
  (sum_ranks (<[i := y]> l) + rank x = sum_ranks l + rank y)%nat.
Proof.
  revert i. induction l as [|a l IH]; intros [|i] Hi; try discriminate.
  - injection Hi as ->. change (<[0%nat := y]> (x :: l)) with (y :: l).
    cbn [sum_ranks]. lia.
  - change (l !! i = Some x) in Hi.
    change (<[S i := y]> (a :: l)) with (a :: <[i := y]> l).
    cbn [sum_ranks]. pose proof (IH i Hi). lia.
Qed.

Lemma rank_le_pool_rank (p : Pool) (i : nat) (th : Thread) :
  threads p !! i = Some th -> (rank th <= pool_rank p)%nat.
Proof.
  unfold pool_rank. generalize (threads p). intros l. revert i.
  induction l as [|a l IH]; intros [|i] Hi; try discriminate.
  - injection Hi as ->. cbn [sum_ranks]. lia.
  - change (l !! i = Some th) in Hi. cbn [sum_ranks].
    pose proof (IH i Hi). lia.
Qed.

Lemma unfinished_rank (th : Thread) : ~ finished (pc th) -> (1 <= rank th)%nat.
Proof. unfold rank. destruct (pc th); cbn [finished]; intros H; try lia; tauto. Qed.

(** A thread that is not waiting for a held lock gets closer to its end
    with each of its actions. *)
Lemma step_rank (tid : nat) (now : Q) (p : Pool) (th : Thread) :
  1 <= BATCH_SIZE ->
  threads p !! tid = Some th ->
  ~ finished (pc th) ->
  (forall n, pc th = AtAcquire n -> progress_lock p = None) ->
  (pool_rank (step BATCH_SIZE start_ts lib tid now p) < pool_rank p)%nat.
Proof.
  intros HB Eth Hnf Hfree. unfold step. rewrite Eth.
  assert (Hupd : forall w l th',
             (rank th' < rank th)%nat ->
             (pool_rank (mkPool w l (<[tid := th']> (threads p)))
              < pool_rank p)%nat).
  { intros w l th' Hlt. unfold pool_rank. cbn [threads].
    pose proof (sum_ranks_insert (threads p) tid th th' Eth). lia. }
  destruct (pc th) as [|n|n|n tmp| | |ret|e] eqn:Epc; cbn [finished] in Hnf.
  - destruct (Z.ltb_spec (inserted th) (total_of (task th))) as [Hlt|Hge].
    + pose proof (build_batch_len BATCH_SIZE start_ts lib (worker_id (task th))
                    (loc_detail_of (task th)) (total_of (task th))
                    (inserted th) (rng (world p))) as Hlen.
      destruct (build_batch BATCH_SIZE start_ts lib (worker_id (task th))
                  (loc_detail_of (task th)) (total_of (task th))
                  (inserted th) (rng (world p))) as [batch r].
      cbn [fst] in Hlen. apply Hupd. unfold rank. rewrite Epc.
      cbn [pc task inserted]. lia.
    + apply Hupd. unfold rank. rewrite Epc. cbn [pc]. lia.
  - rewrite (Hfree n eq_refl). apply Hupd. unfold rank. rewrite Epc.
    cbn [pc task inserted]. lia.
  - unfold set_thread. apply Hupd. unfold rank. rewrite Epc.
    cbn [pc task inserted]. lia.
  - apply Hupd. unfold rank. rewrite Epc. cbn [pc task inserted]. lia.
  - destruct (progress_snapshot _ _ _ _ _); apply Hupd; unfold rank;
      rewrite Epc; cbn [pc task inserted]; lia.
  - apply Hupd. unfold rank. rewrite Epc. cbn [pc task inserted]. lia.
  - tauto.
  - tauto.
Qed.

Lemma finished_or_not (l : list Thread) :
  Forall (fun th => finished (pc th)) l \/
  exists i th, l !! i = Some th /\ ~ finished (pc th).
Proof.
  induction l as [|a l [IH|(i & th & Hi & Hn)]].
  - left. constructor.
  - destruct (pc a) eqn:Ea;
      try (right; exists 0%nat, a; split; [reflexivity|];
           rewrite Ea; cbn [finished]; tauto).
    + left. constructor; [rewrite Ea; exact I|exact IH].
    + left. constructor; [rewrite Ea; exact I|exact IH].
  - right. exists (S i), th. auto.
Qed.

Lemma can_finish (n : nat) :
  1 <= BATCH_SIZE ->
  forall p,
    pool_inv p -> (pool_rank p <= n)%nat ->
    exists sched,
      Forall (fun th => finished (pc th))
             (threads (run BATCH_SIZE start_ts lib sched p)).
Proof.
  intros HB. induction n as [|n IH]; intros p Hinv Hrank.
  - exists []. destruct (finished_or_not (threads p)) as [Hall|(i & th & Hi & Hn)];
      [exact Hall|].
    pose proof (rank_le_pool_rank p i th Hi).
    pose proof (unfinished_rank th Hn). lia.
  - destruct (finished_or_not (threads p)) as [Hall|(i & th & Hi & Hn)];
      [exists []; exact Hall|].
    assert (Hmove : exists j thj,
               threads p !! j = Some thj /\ ~ finished (pc thj) /\
               (forall m, pc thj = AtAcquire m -> progress_lock p = None)).
    { destruct (progress_lock p) as [j|] eqn:El.
      - destruct (inv_held p Hinv j El) as (thj & Hj & Hc).
        exists j, thj. split; [exact Hj|].
        split; destruct (pc thj); cbn [critical finished] in *; try tauto;
          intros m Hm; discriminate Hm.
      - exists i, th. auto. }
    destruct Hmove as (j & thj & Hj & Hnj & Hfree).
    pose proof (step_rank j 0%Q p thj HB Hj Hnj Hfree) as Hlt.
    destruct (IH (step BATCH_SIZE start_ts lib j 0%Q p)
                 (step_inv BATCH_SIZE start_ts lib j 0%Q p Hinv) ltac:(lia))
      as [sched Hs].
    exists ((j, 0%Q) :: sched). exact Hs.
Qed.

End PoolProgress.

(** X18.  Every batch in the table was committed by one of the submitted
    workers: it has at most [BATCH_SIZE] rows, at least one row when
    [BATCH_SIZE >= 1], and all its rows carry that worker's id and
    location tag. *)
Theorem pool_batches_from_workers
    (BATCH_SIZE start_ts : Z) (lib : Library) (T N : Z) (t0 : Q) (r : Rng)
    (p0 : Pool) (sched : list (nat * Q)) :
  main T N t0 r = Ok p0 ->
  exists tasks,
    main_tasks T N t0 = Ok tasks /\
    Forall (batch_from BATCH_SIZE start_ts lib tasks)
           (db (world (run BATCH_SIZE start_ts lib sched p0))).
Proof.
  intros Hm. exists (task <$> threads p0).
  split; [exact (main_threads_tasks T N t0 r p0 Hm)|].
  apply run_batches; [reflexivity|].
  destruct (main_pool T N t0 r p0 Hm) as (tasks & _ & ->). constructor.
Qed.

Lemma pool_batches_from_workers_witness :
  main 5 2 0 sample_rng = Ok sample_pool /\
  exists tasks,
    main_tasks 5 2 0 = Ok tasks /\
    Forall (batch_from 2 1000 sample_lib tasks)
           (db (world (run 2 1000 sample_lib sample_sched sample_pool))).
Proof.
  split; [reflexivity|].
  apply (pool_batches_from_workers 2 1000 sample_lib 5 2 0 sample_rng
           sample_pool sample_sched). reflexivity.
Defined.



(* ===================================================================== *)
(** * A worker scheduled alone behaves as [insert_worker] *)
(* ===================================================================== *)

Section Solo.

Context (BATCH_SIZE start_ts : Z) (lib : Library).

(** One round of the loop, taken by thread [tid] without interruption. *)
Lemma solo_round (tid : nat) (now : Q) (w : World) (ths : list Thread)
    (t : Task) (ins : Z) (batch : list Row) (r : Rng) (s : Snapshot) :
  (tid < length ths)%nat ->
  ins < total_of t ->
  build_batch BATCH_SIZE start_ts lib (worker_id t) (loc_detail_of t)
              (total_of t) ins (rng w) = (batch, r) ->
  progress_snapshot (worker_id t) (global_inserted w + len batch)
                    (total_all_threads t) (t0 t) now = Ok s ->
  run BATCH_SIZE start_ts lib
      [(tid, 0%Q); (tid, 0%Q); (tid, 0%Q); (tid, 0%Q); (tid, now); (tid, 0%Q)]
      (mkPool w None (<[tid := mkThread t ins AtLoop]> ths))
  = mkPool (print (ProgressLine s)
              (set_global_inserted (global_inserted w + len batch)
                                   (commit_batch batch r w)))
           None
           (<[tid := mkThread t (ins + len batch) AtLoop]> ths).
Proof.
  intros Hlen Hlt Eb Hs.
  assert (Hlen' : forall x, (tid < length (<[tid := x]> ths))%nat)
    by (intros x; rewrite length_insert; exact Hlen).
  unfold run. cbn [fold_left fst snd].
  (* commit *)
  unfold step at 6. cbn [threads]. rewrite list_lookup_insert_eq by exact Hlen.
  cbn [pc task inserted world progress_lock].
  destruct (Z.ltb_spec ins (total_of t)) as [_|Hge]; [|lia].
  rewrite Eb. rewrite list_insert_insert_eq.
  (* acquire *)
  unfold step at 5. cbn [threads]. rewrite list_lookup_insert_eq by exact Hlen.
  cbn [pc task inserted world progress_lock]. rewrite list_insert_insert_eq.
  (* load *)
  unfold step at 4. cbn [threads]. rewrite list_lookup_insert_eq by exact Hlen.
  cbn [pc task inserted world progress_lock]. unfold set_thread.
  cbn [threads world progress_lock]. rewrite list_insert_insert_eq.
  (* store *)
  unfold step at 3. cbn [threads]. rewrite list_lookup_insert_eq by exact Hlen.
  cbn [pc task inserted world progress_lock]. rewrite list_insert_insert_eq.
  (* report *)
  unfold step at 2. cbn [threads]. rewrite list_lookup_insert_eq by exact Hlen.
  cbn [pc task inserted world progress_lock].
  change (global_inserted
            (set_global_inserted
               (global_inserted (commit_batch batch r w) + len batch)
               (commit_batch batch r w)))
    with (global_inserted w + len batch).
  rewrite Hs. rewrite list_insert_insert_eq.
  (* release *)
  unfold step. cbn [threads]. rewrite list_lookup_insert_eq by exact Hlen.
  cbn [pc task inserted world progress_lock]. rewrite list_insert_insert_eq.
  reflexivity.
Qed.

Lemma solo_exit (tid : nat) (now : Q) (w : World) (ths : list Thread)
    (t : Task) (ins : Z) :
  (tid < length ths)%nat ->
  total_of t <= ins ->
  step BATCH_SIZE start_ts lib tid now
       (mkPool w None (<[tid := mkThread t ins AtLoop]> ths))
  = mkPool (print (CompletedLine (worker_id t) (total_of t)) w) None
           (<[tid := mkThread t ins (Returned (worker_id t, total_of t))]> ths).
Proof.
  intros Hlen Hge. unfold step. cbn [threads].
  rewrite list_lookup_insert_eq by exact Hlen.
  cbn [pc task inserted world progress_lock].
  destruct (Z.ltb_spec ins (total_of t)) as [Hlt|_]; [lia|].
  rewrite list_insert_insert_eq. reflexivity.
Qed.

(** The loop of [insert_worker] and the thread of the pool agree, round
    by round. *)
Lemma solo_loop (tid : nat) (t : Task) (clock : nat -> Q)
    (ths : list Thread) :
  (tid < length ths)%nat ->
  forall (fuel k : nat) (ins : Z) (w w' : World) (ins' : Z),
    worker_loop BATCH_SIZE start_ts lib fuel (worker_id t) (loc_detail_of t)
                (total_of t) (total_all_threads t) (t0 t) clock k ins w
    = Some (Ok ins', w') ->
    exists iters,
      run BATCH_SIZE start_ts lib (solo_sched tid clock k iters)
          (mkPool w None (<[tid := mkThread t ins AtLoop]> ths))
      = mkPool (print (CompletedLine (worker_id t) (total_of t)) w') None
               (<[tid := mkThread t ins' (Returned (worker_id t, total_of t))]> ths).
Proof.
  intros Hlen. induction fuel as [|fuel IH]; intros k ins w w' ins' Hrun;
    [discriminate Hrun|].
  cbn [worker_loop] in Hrun.
  destruct (Z.ltb_spec ins (total_of t)) as [Hlt|Hge].
  - destruct (build_batch BATCH_SIZE start_ts lib (worker_id t)
                (loc_detail_of t) (total_of t) ins (rng w))
      as [batch r] eqn:Eb.
    change (global_inserted
              (set_global_inserted
                 (global_inserted (commit_batch batch r w) + len batch)
                 (commit_batch batch r w)))
      with (global_inserted w + len batch) in Hrun.
    destruct (progress_snapshot (worker_id t) (global_inserted w + len batch)
                (total_all_threads t) (t0 t) (clock k)) as [s|e] eqn:Es;
      [|discriminate Hrun].
    destruct (IH _ _ _ _ _ Hrun) as [iters Hit].
    exists (S iters). cbn [solo_sched]. rewrite run_app.
    rewrite (solo_round tid (clock k) w ths t ins batch r s Hlen Hlt Eb Es).
    exact Hit.
  - injection Hrun as <- <-. exists 0%nat. cbn [solo_sched].
    unfold run. cbn [fold_left fst snd].
    apply solo_exit; assumption.
Qed.

End Solo.

(** X20.  Scheduled alone from the start of its task, with the lock free, the
    thread of the pool does what [insert_worker] does on that task
    whenever the latter returns: some schedule naming only this thread
    leads to the same table, counter and output, leaves the lock free and
    the other threads untouched, and the thread has returned the same
    pair. *)
Theorem pool_solo_matches_insert_worker
    (BATCH_SIZE start_ts : Z) (lib : Library) (fuel : nat) (clock : nat -> Q)
    (tid : nat) (p : Pool) (t : Task) (ret : Z * Z) (w' : World) :
  threads p !! tid = Some (spawn t) ->
  progress_lock p = None ->
  insert_worker BATCH_SIZE start_ts lib fuel (worker_id t) (start_index t)
                (end_index t) (total_all_threads t) (t0 t) clock (world p)
  = Some (Ok ret, w') ->
  exists sched ins,
    Forall (fun ev => fst ev = tid) sched /\
    run BATCH_SIZE start_ts lib sched p
    = mkPool w' None (<[tid := mkThread t ins (Returned ret)]> (threads p)).
Proof.
  intros Hth Hlock Hw. unfold insert_worker in Hw.
  change ("ARCC" ++ format_04d (worker_id t))%string with (loc_detail_of t) in Hw.
  change (end_index t - start_index t) with (total_of t) in Hw.
  destruct (worker_loop BATCH_SIZE start_ts lib fuel (worker_id t)
              (loc_detail_of t) (total_of t) (total_all_threads t) (t0 t)
              clock 0 0 (world p)) as [[[ins|e] w1]|] eqn:Eloop;
    try discriminate Hw.
  injection Hw as <- <-.
  assert (Hlen : (tid < length (threads p))%nat)
    by (eapply lookup_lt_Some; exact Hth).
  destruct (solo_loop BATCH_SIZE start_ts lib tid t clock (threads p) Hlen
              fuel 0%nat 0 (world p) w1 ins Eloop) as [iters Hit].
  exists (solo_sched tid clock 0 iters), ins. split.
  { clear. generalize 0%nat. induction iters as [|iters IH]; intros k;
      cbn [solo_sched]; [repeat constructor|].
    repeat (constructor; [reflexivity|]). apply IH. }
  rewrite <- Hit. f_equal. destruct p as [w l ths].
  cbn [world progress_lock threads] in *. subst l. f_equal.
  symmetry. apply list_insert_id. exact Hth.
Qed.

Lemma pool_solo_matches_insert_worker_witness :
  threads sample_pool !! 0%nat = Some (spawn (mkTask 1 0 3 5 0)) /\
  progress_lock sample_pool = None /\
  exists w',
    insert_worker 2 1000 sample_lib 4 1 0 3 5 0 sample_clock (world sample_pool)
    = Some (Ok (1, 3), w') /\
    exists sched ins,
      Forall (fun ev => fst ev = 0%nat) sched /\
      run 2 1000 sample_lib sched sample_pool
      = mkPool w' None
               (<[0%nat := mkThread (mkTask 1 0 3 5 0) ins (Returned (1, 3))]>
                  (threads sample_pool)).
Proof.
  split; [reflexivity|]. split; [reflexivity|].
  eexists. split; [vm_compute; reflexivity|].
  apply (pool_solo_matches_insert_worker 2 1000 sample_lib 4 sample_clock
           0%nat sample_pool (mkTask 1 0 3 5 0) (1, 3) _ eq_refl eq_refl).
  vm_compute. reflexivity.
Defined.

(* ===================================================================== *)
(** * Rounding to a double keeps the order *)
(* ===================================================================== *)

Section RoundingFacts.

Lemma round_half_even_mono (n1 d1 n2 d2 : Z) :
  0 < d1 -> 0 < d2 -> n1 * d2 <= n2 * d1 ->
  round_half_even n1 d1 <= round_half_even n2 d2.
Proof.
  intros H1 H2 Hle. unfold round_half_even.
  pose proof (Z.div_mod n1 d1 ltac:(lia)) as E1.
  pose proof (Z.mod_pos_bound n1 d1 H1) as B1.
  pose proof (Z.div_mod n2 d2 ltac:(lia)) as E2.
  pose proof (Z.mod_pos_bound n2 d2 H2) as B2.
  set (q1 := n1 / d1) in *. set (r1 := n1 mod d1) in *.
  set (q2 := n2 / d2) in *. set (r2 := n2 mod d2) in *.
  assert (Hq : q1 <= q2).
  { destruct (Z.le_gt_cases q1 q2) as [|Hgt]; [assumption|exfalso].
    assert (q2 + 1 <= q1) by lia.
    assert (n2 < d2 * (q2 + 1)) by lia.
    assert (d1 * q1 <= n1) by lia.
    assert (d1 * (d2 * (q2 + 1)) <= d1 * (d2 * q1)) by nia.
    nia. }
  destruct (Z.eq_dec q1 q2) as [Heq|Hne].
  - assert (Hr : r1 * d2 <= r2 * d1) by nia.
    rewrite <- Heq.
    destruct (Z.ltb_spec (2 * r1) d1); destruct (Z.ltb_spec (2 * r2) d2);
      destruct (Z.ltb_spec d1 (2 * r1)); destruct (Z.ltb_spec d2 (2 * r2));
      destruct (Z.even q1); try lia; nia.
  - assert (q1 + 1 <= q2) by lia.
    destruct (Z.ltb_spec (2 * r1) d1); destruct (Z.ltb_spec (2 * r2) d2);
      destruct (Z.ltb_spec d1 (2 * r1)); destruct (Z.ltb_spec d2 (2 * r2));
      destruct (Z.even q1); destruct (Z.even q2); lia.
Qed.

Lemma round_half_even_exact (k d : Z) : 0 < d -> round_half_even (k * d) d = k.
Proof.
  intros Hd. unfold round_half_even.
  rewrite Z.div_mul, Z.mod_mul by lia.
  destruct (Z.ltb_spec (2 * 0) d); [reflexivity|lia].
Qed.

Lemma round_half_even_scale (n d c : Z) :
  0 < d -> 0 < c -> round_half_even (n * c) (d * c) = round_half_even n d.
Proof.
  intros Hd Hc. unfold round_half_even.
  rewrite Z.div_mul_cancel_r by lia.
  rewrite Z.mul_mod_distr_r by lia.
  set (r := n mod d).
  replace (2 * (r * c) <? d * c) with (2 * r <? d).
  2:{ destruct (Z.ltb_spec (2 * r) d), (Z.ltb_spec (2 * (r * c)) (d * c));
        try reflexivity; nia. }
  replace (d * c <? 2 * (r * c)) with (d <? 2 * r).
  2:{ destruct (Z.ltb_spec d (2 * r)), (Z.ltb_spec (d * c) (2 * (r * c)));
        try reflexivity; nia. }
  reflexivity.
Qed.

(** The exponent found is the largest the quotient reaches. *)
Lemma quotient_exponent_high (a b : Z) :
  0 < a -> 0 < b ->
  let L := quotient_exponent a b in
  a * 2 ^ Z.max 0 (- (L + 1)) < b * 2 ^ Z.max 0 (L + 1).
Proof.
  intros Ha Hb. unfold quotient_exponent.
  pose proof (Z.log2_spec a Ha) as [Hla Hla'].
  pose proof (Z.log2_spec b Hb) as [Hlb Hlb'].
  pose proof (Z.log2_nonneg a) as Hna. pose proof (Z.log2_nonneg b) as Hnb.
  set (la := Z.log2 a) in *. set (lb := Z.log2 b) in *.
  destruct (Z.leb_spec (b * 2 ^ Z.max 0 (la - lb)) (a * 2 ^ Z.max 0 (- (la - lb))))
    as [Hle|Hgt]; cbv zeta.
  - destruct (Z.le_gt_cases 0 (la - lb + 1)) as [Hd|Hd].
    + rewrite (Z.max_r 0 (la - lb + 1)) by lia.
      rewrite (Z.max_l 0 (- (la - lb + 1))) by lia.
      rewrite Z.pow_0_r, Z.mul_1_r.
      assert (Hp : 2 ^ Z.succ la = 2 ^ lb * 2 ^ (la - lb + 1)).
      { rewrite <- pow2_split by lia. f_equal; lia. }
      pose proof (pow2_pos (la - lb + 1) ltac:(lia)). nia.
    + rewrite (Z.max_l 0 (la - lb + 1)) by lia.
      rewrite (Z.max_r 0 (- (la - lb + 1))) by lia.
      rewrite Z.pow_0_r, Z.mul_1_r.
      assert (Hp : 2 ^ lb = 2 ^ Z.succ la * 2 ^ (- (la - lb + 1))).
      { rewrite <- pow2_split by lia. f_equal; lia. }
      pose proof (pow2_pos (- (la - lb + 1)) ltac:(lia)). nia.
  - replace (la - lb - 1 + 1) with (la - lb) by lia. lia.
Qed.

End RoundingFacts.

Section Binary64Order.

Lemma pow2_le (x y : Z) : 0 <= x <= y -> 2 ^ x <= 2 ^ y.
Proof. intros H. apply Z.pow_le_mono_r; lia. Qed.

(** What [binary64_div] computes, with the exponents counted from that
    of the smallest subnormal: the mantissa is the quotient rounded at
    the chosen unit, the quotient is below [2^53] units, and at least
    [2^52] units unless the unit is the smallest one. *)
Lemma binary64_div_spec (a b : Z) :
  0 < a -> 0 < b ->
  exists m e,
    -1074 <= e /\
    m = round_half_even (a * 2 ^ 1074) (b * 2 ^ (e + 1074)) /\
    a * 2 ^ 1074 < b * 2 ^ (e + 1127) /\
    (-1074 < e -> b * 2 ^ (e + 1126) <= a * 2 ^ 1074) /\
    binary64_div a b
    = if 2 ^ 1024 <=? m * 2 ^ Z.max 0 e then Raise OverflowError else Ok (m, e).
Proof.
  intros Ha Hb. unfold binary64_div.
  pose proof (quotient_exponent_low a b Ha Hb) as [Hlow _].
  pose proof (quotient_exponent_high a b Ha Hb) as Hhigh.
  cbv zeta in Hlow, Hhigh.
  set (L := quotient_exponent a b) in *.
  set (e := Z.max (L - 52) (-1074)).
  assert (He : -1074 <= e) by lia.
  assert (HeL : L - 52 <= e) by lia.
  exists (round_half_even (a * 2 ^ Z.max 0 (- e)) (b * 2 ^ Z.max 0 e)), e.
  split; [exact He|].
  split.
  { set (c := 2 ^ (1074 + Z.min 0 e)).
    assert (Hc : 0 < c) by (apply pow2_pos; lia).
    assert (E1 : a * 2 ^ 1074 = a * 2 ^ Z.max 0 (- e) * c).
    { unfold c. rewrite <- Z.mul_assoc, <- pow2_split by lia.
      do 2 f_equal. lia. }
    assert (E2 : b * 2 ^ (e + 1074) = b * 2 ^ Z.max 0 e * c).
    { unfold c. rewrite <- Z.mul_assoc, <- pow2_split by lia.
      do 2 f_equal. lia. }
    rewrite E1, E2. symmetry. apply round_half_even_scale; [|exact Hc].
    pose proof (pow2_pos (Z.max 0 e) ltac:(lia)). nia. }
  split.
  { destruct (Z.le_gt_cases 0 (L + 1)) as [HL|HL].
    - rewrite (Z.max_r 0 (L + 1)), (Z.max_l 0 (- (L + 1))), Z.pow_0_r, Z.mul_1_r
        in Hhigh by lia.
      assert (E : 2 ^ (e + 1127) = 2 ^ (L + 1) * 2 ^ 1074 * 2 ^ (e + 52 - L)).
      { rewrite <- !pow2_split by lia. f_equal; lia. }
      rewrite E.
      pose proof (pow2_pos (L + 1) HL). pose proof (pow2_pos 1074 ltac:(lia)).
      pose proof (pow2_pos (e + 52 - L) ltac:(lia)).
      set (x := 2 ^ (L + 1)) in *. set (S := 2 ^ 1074) in *.
      set (y := 2 ^ (e + 52 - L)) in *.
      assert (a * S < b * x * S) by nia.
      assert (b * x * S <= b * x * S * y) by nia.
      lia.
    - rewrite (Z.max_l 0 (L + 1)), (Z.max_r 0 (- (L + 1))), Z.pow_0_r, Z.mul_1_r
        in Hhigh by lia.
      set (k := - (L + 1)) in *.
      destruct (Z.le_gt_cases k 1074) as [Hk|Hk].
      + assert (E : 2 ^ 1074 = 2 ^ k * 2 ^ (1074 - k)).
        { rewrite <- pow2_split by lia. f_equal; lia. }
        assert (E' : 2 ^ (e + 1127) = 2 ^ (1074 - k) * 2 ^ (e + 53 + k)).
        { rewrite <- pow2_split by lia. f_equal; lia. }
        rewrite E, E'.
        pose proof (pow2_pos k ltac:(lia)). pose proof (pow2_pos (1074 - k) ltac:(lia)).
        pose proof (pow2_pos (e + 53 + k) ltac:(lia)).
        set (x := 2 ^ k) in *. set (y := 2 ^ (1074 - k)) in *.
        set (z := 2 ^ (e + 53 + k)) in *.
        assert (a * x * y < b * y) by nia.
        assert (b * y <= b * y * z) by nia.
        lia.
      + pose proof (pow2_le 1074 k ltac:(lia)).
        pose proof (pow2_pos 1074 ltac:(lia)).
        pose proof (pow2_pos (e + 1127) ltac:(lia)).
        set (x := 2 ^ k) in *. set (S := 2 ^ 1074) in *.
        set (z := 2 ^ (e + 1127)) in *.
        assert (a * S <= a * x) by nia.
        assert (b <= b * z) by nia.
        lia. }
  split; [|reflexivity].
  intros Hnorm. assert (EL : e = L - 52) by lia.
  replace (e + 1126) with (L + 1074) by lia.
  destruct (Z.le_gt_cases 0 L) as [HL|HL].
  - rewrite (Z.max_r 0 L), (Z.max_l 0 (- L)), Z.pow_0_r, Z.mul_1_r in Hlow by lia.
    rewrite pow2_split by lia.
    pose proof (pow2_pos 1074 ltac:(lia)).
    set (x := 2 ^ L) in *. set (S := 2 ^ 1074) in *. nia.
  - rewrite (Z.max_l 0 L), (Z.max_r 0 (- L)), Z.pow_0_r, Z.mul_1_r in Hlow by lia.
    assert (E : 2 ^ 1074 = 2 ^ (- L) * 2 ^ (L + 1074)).
    { rewrite <- pow2_split by lia. f_equal; lia. }
    rewrite E.
    pose proof (pow2_pos (L + 1074) ltac:(lia)).
    set (x := 2 ^ (- L)) in *. set (y := 2 ^ (L + 1074)) in *. nia.
Qed.

End Binary64Order.

Section Binary64Mono.

Lemma binary64_div_inv (a b m e : Z) :
  0 < a -> 0 < b -> binary64_div a b = Ok (m, e) ->
  -1074 <= e /\
  m = round_half_even (a * 2 ^ 1074) (b * 2 ^ (e + 1074)) /\
  a * 2 ^ 1074 < b * 2 ^ (e + 1127) /\
  (-1074 < e -> b * 2 ^ (e + 1126) <= a * 2 ^ 1074).
Proof.
  intros Ha Hb Hok.
  destruct (binary64_div_spec a b Ha Hb) as (m' & e' & He & Hm & HU & HL & Hd).
  rewrite Hd in Hok. destruct (2 ^ 1024 <=? _); [discriminate|].
  injection Hok as <- <-. auto.
Qed.

(** The mantissa has at most 53 bits, and all of them unless the unit is
    the smallest one. *)
Lemma binary64_div_mantissa (a b m e : Z) :
  0 < a -> 0 < b -> binary64_div a b = Ok (m, e) ->
  0 <= m <= 2 ^ 53 /\ (-1074 < e -> 2 ^ 52 <= m).
Proof.
  intros Ha Hb Hok.
  destruct (binary64_div_inv a b m e Ha Hb Hok) as (He & Hm & HU & HL).
  pose proof (pow2_pos 1074 ltac:(lia)) as HS.
  pose proof (pow2_pos (e + 1074) ltac:(lia)) as Hu.
  assert (E53 : 2 ^ (e + 1127) = 2 ^ 53 * 2 ^ (e + 1074)).
  { rewrite <- pow2_split by lia. f_equal; lia. }
  set (S := 2 ^ 1074) in *. set (u := 2 ^ (e + 1074)) in *.
  assert (Hbu : 0 < b * u) by nia.
  split; [split|].
  - rewrite Hm. apply round_half_even_nonneg; nia.
  - rewrite <- (round_half_even_exact (2 ^ 53) (b * u) Hbu), Hm.
    apply round_half_even_mono; [exact Hbu|exact Hbu|].
    rewrite E53 in HU. nia.
  - intros Hn. specialize (HL Hn).
    assert (E52 : 2 ^ (e + 1126) = 2 ^ 52 * 2 ^ (e + 1074)).
    { rewrite <- pow2_split by lia. f_equal; lia. }
    fold u in E52. rewrite E52 in HL.
    rewrite <- (round_half_even_exact (2 ^ 52) (b * u) Hbu), Hm.
    apply round_half_even_mono; [exact Hbu|exact Hbu|]. nia.
Qed.

(** Rounding keeps the order of two quotients; the doubles are compared
    as multiples of the smallest subnormal. *)
Lemma binary64_div_mono (a b c d m1 e1 m2 e2 : Z) :
  0 < a -> 0 < b -> 0 < c -> 0 < d ->
  a * d <= c * b ->
  binary64_div a b = Ok (m1, e1) ->
  binary64_div c d = Ok (m2, e2) ->
  m1 * 2 ^ (e1 + 1074) <= m2 * 2 ^ (e2 + 1074).
Proof.
  intros Ha Hb Hc Hd Hle H1 H2.
  destruct (binary64_div_inv a b m1 e1 Ha Hb H1) as (He1 & Hm1 & HU1 & HL1).
  destruct (binary64_div_inv c d m2 e2 Hc Hd H2) as (He2 & Hm2 & HU2 & HL2).
  destruct (binary64_div_mantissa a b m1 e1 Ha Hb H1) as [[Hm1a Hm1b] _].
  destruct (binary64_div_mantissa c d m2 e2 Hc Hd H2) as [[Hm2a _] Hm2b].
  pose proof (pow2_pos 1074 ltac:(lia)) as HS.
  destruct (Z.lt_trichotomy e1 e2) as [Hlt|[Heq|Hgt]].
  - specialize (Hm2b ltac:(lia)).
    assert (E : 2 ^ (e2 + 1074) = 2 ^ (e1 + 1074) * 2 ^ (e2 - e1)).
    { rewrite <- pow2_split by lia. f_equal; lia. }
    assert (E' : 2 ^ (e2 - e1) = 2 * 2 ^ (e2 - e1 - 1)).
    { rewrite <- Z.pow_succ_r by lia. f_equal; lia. }
    assert (E53 : 2 ^ 53 = 2 * 2 ^ 52) by reflexivity.
    pose proof (pow2_pos (e1 + 1074) ltac:(lia)).
    pose proof (pow2_pos (e2 - e1 - 1) ltac:(lia)).
    rewrite E, E'. rewrite E53 in Hm1b.
    set (u := 2 ^ (e1 + 1074)) in *. set (v := 2 ^ (e2 - e1 - 1)) in *.
    set (h := 2 ^ 52) in *.
    assert (m1 * u <= 2 * h * u) by nia.
    assert (2 * h * u <= 2 * h * u * v) by nia.
    assert (h * (u * (2 * v)) <= m2 * (u * (2 * v))) by nia.
    lia.
  - subst e2.
    pose proof (pow2_pos (e1 + 1074) ltac:(lia)) as Hu.
    set (S := 2 ^ 1074) in *. set (u := 2 ^ (e1 + 1074)) in *.
    assert (m1 <= m2); [|nia].
    rewrite Hm1, Hm2. apply round_half_even_mono; nia.
  - exfalso. specialize (HL1 ltac:(lia)).
    assert (E : 2 ^ (e1 + 1126) = 2 ^ (e2 + 1127) * 2 ^ (e1 - e2 - 1)).
    { rewrite <- pow2_split by lia. f_equal; lia. }
    pose proof (pow2_pos (e2 + 1127) ltac:(lia)).
    pose proof (pow2_pos (e1 - e2 - 1) ltac:(lia)).
    rewrite E in HL1.
    set (S := 2 ^ 1074) in *. set (x := 2 ^ (e2 + 1127)) in *.
    set (y := 2 ^ (e1 - e2 - 1)) in *.
    assert (c * S * b < d * x * b) by nia.
    assert (d * x * b <= d * (x * y) * b) by nia.
    assert (d * (b * (x * y)) <= d * (a * S)) by nia.
    assert (a * S * d <= c * S * b) by nia.
    lia.
Qed.

(** A quotient below [2^53] is never too large for a double. *)
Lemma binary64_div_finite (a b : Z) :
  0 < a -> 0 < b -> a < b * 2 ^ 53 ->
  exists m e, binary64_div a b = Ok (m, e).
Proof.
  intros Ha Hb Hlt.
  destruct (binary64_div_spec a b Ha Hb) as (m & e & He & Hm & HU & HL & Hd).
  exists m, e. rewrite Hd.
  assert (He0 : e <= 0).
  { destruct (Z.le_gt_cases e 0) as [|Hpos]; [assumption|exfalso].
    specialize (HL ltac:(lia)).
    assert (E : 2 ^ (e + 1126) = 2 ^ 53 * 2 ^ 1074 * 2 ^ (e - 1)).
    { rewrite <- !pow2_split by lia. f_equal; lia. }
    pose proof (pow2_pos 1074 ltac:(lia)). pose proof (pow2_pos (e - 1) ltac:(lia)).
    pose proof (pow2_pos 53 ltac:(lia)).
    rewrite E in HL.
    set (S := 2 ^ 1074) in *. set (y := 2 ^ (e - 1)) in *. set (h := 2 ^ 53) in *.
    assert (a * S < b * h * S) by nia.
    assert (b * h * S <= b * (h * S * y)) by nia.
    lia. }
  rewrite Z.max_l, Z.pow_0_r, Z.mul_1_r by lia.
  assert (Hm53 : m <= 2 ^ 53).
  { pose proof (pow2_pos 1074 ltac:(lia)) as HS.
    pose proof (pow2_pos (e + 1074) ltac:(lia)) as Hu.
    assert (E53 : 2 ^ (e + 1127) = 2 ^ 53 * 2 ^ (e + 1074)).
    { rewrite <- pow2_split by lia. f_equal; lia. }
    set (S := 2 ^ 1074) in *. set (u := 2 ^ (e + 1074)) in *.
    assert (Hbu : 0 < b * u) by nia.
    rewrite <- (round_half_even_exact (2 ^ 53) (b * u) Hbu), Hm.
    apply round_half_even_mono; [exact Hbu|exact Hbu|].
    rewrite E53 in HU. nia. }
  assert (H53 : 2 ^ 53 < 2 ^ 1024) by (apply Z.pow_lt_mono_r; lia).
  destruct (Z.leb_spec (2 ^ 1024) m); [lia|reflexivity].
Qed.

Lemma dyadic_units (m e : Z) :
  -1074 <= e ->
  (dyadic m e == (m * 2 ^ (e + 1074)) # Z.to_pos (2 ^ 1074))%Q.
Proof.
  intros He. unfold dyadic, Qeq.
  pose proof (pow2_pos 1074 ltac:(lia)) as HS.
  destruct (Z.leb_spec 0 e) as [Hpos|Hneg]; cbn [Qnum Qden inject_Z].
  - rewrite Z2Pos.id by exact HS. rewrite pow2_split by lia.
    set (S := 2 ^ 1074) in *. set (x := 2 ^ e). lia.
  - pose proof (pow2_pos (- e) ltac:(lia)) as Hx.
    rewrite !Z2Pos.id by assumption.
    assert (E : 2 ^ 1074 = 2 ^ (e + 1074) * 2 ^ (- e)).
    { rewrite <- pow2_split by lia. f_equal; lia. }
    rewrite E. set (x := 2 ^ (e + 1074)). set (y := 2 ^ (- e)). lia.
Qed.

Lemma dyadic_le (m1 e1 m2 e2 : Z) :
  -1074 <= e1 -> -1074 <= e2 ->
  m1 * 2 ^ (e1 + 1074) <= m2 * 2 ^ (e2 + 1074) ->
  (dyadic m1 e1 <= dyadic m2 e2)%Q.
Proof.
  intros H1 H2 Hle. rewrite (dyadic_units m1 e1 H1), (dyadic_units m2 e2 H2).
  unfold Qle. cbn [Qnum Qden].
  apply Z.mul_le_mono_nonneg_r; [lia|exact Hle].
Qed.

Lemma dyadic_nonneg (m e : Z) : 0 <= m -> (0 <= dyadic m e)%Q.
Proof.
  intros Hm. unfold dyadic, Qle.
  destruct (Z.leb_spec 0 e) as [Hpos|Hneg]; cbn [Qnum Qden inject_Z].
  - pose proof (pow2_pos e Hpos). nia.
  - lia.
Qed.

End Binary64Mono.

Section DoubleFacts.


(** Rounding keeps the order of non-negative numbers (stated below
    [2^52], where no overflow is in sight). *)
Lemma round_binary64_mono (x y : Q) :
  (0 <= x)%Q -> (x <= y)%Q -> (y <= inject_Z (2 ^ 52))%Q ->
  exists f1 f2,
    round_binary64 x = Finite f1 /\ round_binary64 y = Finite f2 /\
    (0 <= f1)%Q /\ (f1 <= f2)%Q.
Proof.
  intros H0 Hxy Hy.
  assert (Hfin : forall z, (z <= inject_Z (2 ^ 52))%Q -> 0 < Qnum z ->
                   exists m e, binary64_div (Qnum z) (Zpos (Qden z)) = Ok (m, e)).
  { intros z Hz Hpos. apply binary64_div_finite; [exact Hpos|lia|].
    unfold Qle in Hz. cbn [Qnum Qden inject_Z] in Hz.
    assert (E : 2 ^ 53 = 2 * 2 ^ 52) by reflexivity.
    rewrite E. set (h := 2 ^ 52) in *. lia. }
  assert (Hx0 : 0 <= Qnum x).
  { unfold Qle in H0. cbn [Qnum Qden] in H0. lia. }
  assert (Hnum : Qnum x * Zpos (Qden y) <= Qnum y * Zpos (Qden x)) by exact Hxy.
  unfold round_binary64.
  destruct (Z.eqb_spec (Qnum x) 0) as [Ex|Ex].
  - exists 0%Q.
    destruct (Z.eqb_spec (Qnum y) 0) as [Ey|Ey].
    + exists 0%Q. repeat split; apply Qle_refl.
    + assert (Hypos : 0 < Qnum y) by nia.
      destruct (Hfin y Hy Hypos) as (m & e & Hd).
      rewrite Z.abs_eq, Hd by lia.
      destruct (Z.ltb_spec (Qnum y) 0); [lia|].
      exists (dyadic m e).
      assert (Hd0 : (0 <= dyadic m e)%Q).
      { apply dyadic_nonneg.
        eapply binary64_div_mantissa; [| |exact Hd]; lia. }
      repeat split; first [apply Qle_refl | exact Hd0].
  - assert (Hxpos : 0 < Qnum x) by lia.
    assert (Hypos : 0 < Qnum y) by nia.
    destruct (Hfin x (Qle_trans _ _ _ Hxy Hy) Hxpos) as (m1 & e1 & Hd1).
    destruct (Hfin y Hy Hypos) as (m2 & e2 & Hd2).
    destruct (Z.eqb_spec (Qnum y) 0); [lia|].
    rewrite !Z.abs_eq, Hd1, Hd2 by lia.
    destruct (Z.ltb_spec (Qnum x) 0); [lia|].
    destruct (Z.ltb_spec (Qnum y) 0); [lia|].
    exists (dyadic m1 e1), (dyadic m2 e2).
    split; [reflexivity|]. split; [reflexivity|].
    split.
    + apply dyadic_nonneg.
      eapply binary64_div_mantissa; [| |exact Hd1]; lia.
    + apply dyadic_le.
      * eapply binary64_div_inv; [| |exact Hd1]; lia.
      * eapply binary64_div_inv; [| |exact Hd2]; lia.
      * eapply binary64_div_mono; [| | | | |exact Hd1|exact Hd2]; lia.
Qed.

Lemma binary64_div_one : binary64_div 1 1 = Ok (2 ^ 52, -52).
Proof. vm_compute. reflexivity. Qed.

(** The quotient of two ints, the first between [0] and the second. *)
Lemma int_truediv_mono (g1 g2 T : Z) :
  0 <= g1 <= g2 -> g2 <= T -> 0 < T ->
  exists r1 r2,
    int_truediv g1 T = Ok (Finite r1) /\ int_truediv g2 T = Ok (Finite r2) /\
    (0 <= r1)%Q /\ (r1 <= r2)%Q /\ (r2 <= 1)%Q.
Proof.
  intros Hg HT HT0.
  assert (Hpos : forall g, 0 < g <= T ->
            exists m e, binary64_div g T = Ok (m, e) /\
                        int_truediv g T = Ok (Finite (dyadic m e)) /\
                        (0 <= dyadic m e)%Q /\ (dyadic m e <= 1)%Q).
  { intros g Hgr.
    assert (H53 : 1 <= 2 ^ 53) by (vm_compute; discriminate).
    destruct (binary64_div_finite g T ltac:(lia) HT0 ltac:(nia)) as (m & e & Hd).
    exists m, e. split; [exact Hd|].
    split.
    { unfold int_truediv.
      destruct (Z.eqb_spec T 0); [lia|]. destruct (Z.eqb_spec g 0); [lia|].
      rewrite !Z.abs_eq, Hd by lia. cbn [rbind fst snd].
      destruct (Z.ltb_spec 0 (g * T)); [reflexivity|nia]. }
    split.
    { apply dyadic_nonneg.
      eapply binary64_div_mantissa; [| |exact Hd]; lia. }
    assert (E1 : (1 == dyadic (2 ^ 52) (-52))%Q) by (vm_compute; reflexivity).
    rewrite E1. apply dyadic_le.
    - eapply binary64_div_inv; [| |exact Hd]; lia.
    - lia.
    - eapply binary64_div_mono;
        [| | | | |exact Hd|exact binary64_div_one]; lia. }
  assert (Hzero : int_truediv 0 T = Ok (Finite 0)).
  { unfold int_truediv. destruct (Z.eqb_spec T 0); [lia|]. reflexivity. }
  destruct (Z.eq_dec g2 0) as [E2|E2].
  - assert (g1 = 0) by lia. subst g1 g2. exists 0%Q, 0%Q.
    repeat split; first [exact Hzero | apply Qle_refl | discriminate].
  - destruct (Hpos g2 ltac:(lia)) as (m2 & e2 & Hd2 & Hi2 & Hn2 & Hu2).
    destruct (Z.eq_dec g1 0) as [E1|E1].
    + subst g1. exists 0%Q, (dyadic m2 e2).
      repeat split; first [exact Hzero | exact Hi2 | apply Qle_refl | assumption].
    + destruct (Hpos g1 ltac:(lia)) as (m1 & e1 & Hd1 & Hi1 & Hn1 & _).
      exists (dyadic m1 e1), (dyadic m2 e2).
      repeat split; try assumption.
      apply dyadic_le.
      * eapply binary64_div_inv; [| |exact Hd1]; lia.
      * eapply binary64_div_inv; [| |exact Hd2]; lia.
      * eapply binary64_div_mono; [| | | | |exact Hd1|exact Hd2]; nia.
Qed.

(** Line 155 as computed: for a counter between [0] and the total the
    percentage is a finite double, not negative, and it does not go down
    when the counter goes up. *)
Lemma binary64_percent_mono (g1 g2 T : Z) :
  0 <= g1 <= g2 -> g2 <= T -> 0 < T ->
  exists f1 f2,
    binary64_percent g1 T = Ok (Finite f1) /\
    binary64_percent g2 T = Ok (Finite f2) /\
    (0 <= f1)%Q /\ (f1 <= f2)%Q.
Proof.
  intros Hg HT HT0.
  destruct (int_truediv_mono g1 g2 T Hg HT HT0)
    as (r1 & r2 & H1 & H2 & Hr0 & Hr12 & Hr1).
  unfold binary64_percent. rewrite H1, H2. cbn [rbind float_mul].
  destruct (round_binary64_mono (r1 * 100) (r2 * 100)) as (f1 & f2 & E1 & E2 & Hf).
  - apply Qmult_le_0_compat; [exact Hr0|discriminate].
  - apply Qmult_le_compat_r; [exact Hr12|discriminate].
  - apply Qle_trans with (1 * 100)%Q.
    + apply Qmult_le_compat_r; [exact Hr1|discriminate].
    + vm_compute. discriminate.
  - exists f1, f2. rewrite E1, E2. auto.
Qed.





End DoubleFacts.

(* ===================================================================== *)
(** * The pool: what the printed snapshots show *)
(* ===================================================================== *)

Section Reports.

Context (BATCH_SIZE start_ts : Z) (lib : Library).

(** What lines 155-159 put in a snapshot, as exact values. *)
Lemma progress_snapshot_fields (wid g T : Z) (t0 now : Q) (s : Snapshot) :
  progress_snapshot wid g T t0 now = Ok s ->
  0 <= g <= T -> 0 < T ->
  snap_global_inserted s = g /\ snap_total s = T /\
  snap_percent s = (inject_Z g / inject_Z T * 100)%Q /\
  (0 <= snap_percent s)%Q /\ 0 <= snap_left s /\
  (0 <= snap_rate s)%Q /\ (0 <= snap_eta s)%Q.
Proof.
  intros Hs Hg HT. unfold progress_snapshot in Hs.
  rewrite (truediv_ok _ _ (inject_Z_nonzero T ltac:(lia))) in Hs.
  cbn [rbind] in Hs.
  assert (Hg0 : (0 <= inject_Z g)%Q) by (change (inject_Z 0 <= inject_Z g)%Q; rewrite <- Zle_Qle; lia).
  assert (Hl0 : (0 <= inject_Z (T - g))%Q)
    by (change (inject_Z 0 <= inject_Z (T - g))%Q; rewrite <- Zle_Qle; lia).
  assert (HT0 : (0 < inject_Z T)%Q) by (change (inject_Z 0 < inject_Z T)%Q; rewrite <- Zlt_Qlt; lia).
  assert (Hpct : (0 <= inject_Z g / inject_Z T * 100)%Q).
  { apply Qmult_le_0_compat; [|discriminate].
    apply Qle_shift_div_l; [exact HT0|]. rewrite Qmult_0_l. exact Hg0. }
  assert (Hdiv : forall a b : Q, (0 <= a)%Q -> (0 < b)%Q -> (0 <= a / b)%Q).
  { intros a b Ha Hb. apply Qle_shift_div_l; [exact Hb|].
    rewrite Qmult_0_l. exact Ha. }
  destruct (Qpositive (now - t0)) eqn:Ee.
  - apply Qpositive_spec in Ee.
    rewrite (truediv_ok _ _ (positive_nonzero _ Ee)) in Hs. cbn [rbind] in Hs.
    destruct (Qpositive (inject_Z g / (now - t0))) eqn:Er.
    + apply Qpositive_spec in Er.
      rewrite (truediv_ok _ _ (positive_nonzero _ Er)) in Hs. cbn [rbind] in Hs.
      injection Hs as <-.
      cbn [snap_global_inserted snap_total snap_percent snap_left snap_rate
           snap_eta].
      repeat split; first [exact Hpct | lia | apply Hdiv; assumption
                          | apply Qlt_le_weak; exact Er].
    + cbn [rbind] in Hs. injection Hs as <-.
      cbn [snap_global_inserted snap_total snap_percent snap_left snap_rate
           snap_eta].
      repeat split; first [exact Hpct | lia | apply Hdiv; assumption
                          | apply Qle_refl].
  - cbn [rbind] in Hs.
    assert (E0 : Qpositive 0 = false) by reflexivity.
    rewrite E0 in Hs. cbn [rbind] in Hs. injection Hs as <-.
    cbn [snap_global_inserted snap_total snap_percent snap_left snap_rate
         snap_eta].
    repeat split; first [exact Hpct | lia | apply Qle_refl].
Qed.

Lemma progress_snapshot_counter (wid g T : Z) (t0 now : Q) (s : Snapshot) :
  progress_snapshot wid g T t0 now = Ok s ->
  snap_global_inserted s = g /\ snap_total s = T.
Proof.
  unfold progress_snapshot. intros Hs.
  destruct (truediv (inject_Z g) (inject_Z T)) as [ratio|]; [|discriminate].
  cbn [rbind] in Hs.
  destruct (if Qpositive (now - t0) then _ else _) as [rate|]; [|discriminate].
  cbn [rbind] in Hs.
  destruct (if Qpositive rate then _ else _) as [eta|]; [|discriminate].
  cbn [rbind] in Hs. injection Hs as <-. auto.
Qed.

(** The counter of a pool is never negative. *)
Lemma pool_inv_counter (p : Pool) :
  pool_inv p ->
  0 <= global_inserted (world p) <= sumZ (inserted <$> threads p).
Proof.
  intros [_ _ _ Hc _ Hth].
  assert (Hp1 : sumZ ((fun th => pending (pc th)) <$> threads p)
                <= sumZ (inserted <$> threads p)).
  { apply sumZ_le_pointwise. eapply Forall_impl; [exact Hth|].
    intros th Hok. apply Hok. }
  assert (Hp0 : 0 <= sumZ ((fun th => pending (pc th)) <$> threads p)).
  { rewrite <- (sumZ_const_zero (fun _ : Thread => 0) (threads p))
      by reflexivity.
    apply sumZ_le_pointwise. eapply Forall_impl; [exact Hth|].
    intros th Hok. apply Hok. }
  lia.
Qed.

Lemma snapshot_ok_mono (T cur cur' : Z) (s : Snapshot) :
  cur <= cur' -> snapshot_ok T cur s -> snapshot_ok T cur' s.
Proof.
  intros Hle (HT & Ht & Hg & Hex). repeat split; first [assumption | lia].
Qed.

Lemma report_inv_world (T : Z) (p : Pool) (w' : World) (lock' : option nat)
    (ths' : list Thread) :
  stdout w' = stdout (world p) ->
  global_inserted (world p) <= global_inserted w' ->
  report_inv T p -> report_inv T (mkPool w' lock' ths').
Proof.
  intros Hout Hle [Hall Hasc]. unfold report_inv. cbn [world].
  rewrite Hout. split; [|exact Hasc].
  eapply Forall_impl; [exact Hall|]. intros s. apply snapshot_ok_mono, Hle.
Qed.

Lemma ascending_snoc (T cur : Z) (l : list Snapshot) (s : Snapshot) :
  Forall (snapshot_ok T cur) l -> ascending l ->
  snap_global_inserted s = cur ->
  ascending (l ++ [s]).
Proof.
  intros Hall Hasc Hs i j s1 s2 Hij H1 H2.
  destruct (decide (j < length l)%nat) as [Hj|Hj].
  - rewrite lookup_app_l in H1, H2 by lia. exact (Hasc i j s1 s2 Hij H1 H2).
  - assert (E2 : s2 = s).
    { rewrite lookup_app_r in H2 by lia.
      destruct (j - length l)%nat as [|k]; cbn in H2; [congruence|discriminate]. }
    subst s2. destruct (decide (i < length l)%nat) as [Hi|Hi].
    + rewrite lookup_app_l in H1 by lia.
      rewrite Forall_lookup in Hall.
      destruct (Hall i s1 H1) as (_ & _ & Hb & _). lia.
    + rewrite lookup_app_r in H1 by lia.
      destruct (i - length l)%nat as [|k]; cbn in H1; [|discriminate].
      injection H1 as <-. lia.
Qed.

(** Every action keeps the invariant of the output: only line 154
    changes the counter, upwards, and only line 160 prints a snapshot,
    of the counter as it stands. *)
Lemma step_report_inv (T : Z) (tid : nat) (now : Q) (p : Pool) :
  pool_inv p ->
  Forall (fun t => total_all_threads t = T /\ (0 < total_of t -> 0 < T))
         (task <$> threads p) ->
  report_inv T p -> report_inv T (step BATCH_SIZE start_ts lib tid now p).
Proof.
  intros Hinv Hstatic Hrep. unfold step.
  destruct (threads p !! tid) as [th|] eqn:Eth; [|exact Hrep].
  pose proof (inv_threads p Hinv) as Hall.
  rewrite Forall_lookup in Hall. pose proof (Hall tid th Eth) as Hok.
  destruct Hok as (Hins & Hpend & _ & Hpc).
  assert (Hst : total_all_threads (task th) = T /\
                (0 < total_of (task th) -> 0 < T)).
  { rewrite Forall_lookup in Hstatic. apply (Hstatic tid).
    rewrite list_lookup_fmap, Eth. reflexivity. }
  destruct Hst as [HT Hpos].
  destruct (pc th) as [|n|n|n tmp| | |ret|e] eqn:Epc; cbn [pending] in *.
  - destruct (inserted th <? total_of (task th)).
    + destruct (build_batch BATCH_SIZE start_ts lib (worker_id (task th))
                  (loc_detail_of (task th)) (total_of (task th))
                  (inserted th) (rng (world p))) as [batch r].
      apply (report_inv_world T p); [reflexivity|reflexivity|exact Hrep].
    + destruct Hrep as [Hs Hasc]. unfold report_inv. cbn [world].
      rewrite snapshots_print_completed. split; [exact Hs|exact Hasc].
  - destruct (progress_lock p); [exact Hrep|].
    apply (report_inv_world T p); [reflexivity|reflexivity|exact Hrep].
  - unfold set_thread.
    apply (report_inv_world T p); [reflexivity|reflexivity|exact Hrep].
  - pose proof (inv_read p Hinv tid th n tmp Eth Epc) as Htmp.
    apply (report_inv_world T p); [reflexivity| |exact Hrep].
    cbn [set_global_inserted global_inserted]. lia.
  - destruct (progress_snapshot (worker_id (task th)) (global_inserted (world p))
                (total_all_threads (task th)) (t0 (task th)) now) as [s|e] eqn:Es.
    + destruct Hrep as [Hs Hasc]. unfold report_inv. cbn [world].
      rewrite snapshots_print_progress. cbn [print global_inserted].
      destruct (progress_snapshot_counter _ _ _ _ _ _ Es) as [Hg Ht].
      pose proof (pool_inv_counter p Hinv) as [Hc0 _].
      split.
      * apply Forall_app. split; [exact Hs|]. constructor; [|constructor].
        unfold snapshot_ok. rewrite Hg, Ht, HT.
        repeat split; first [lia | auto].
        exists (worker_id (task th)), (t0 (task th)), now.
        rewrite <- HT. exact Es.
      * exact (ascending_snoc T _ _ s Hs Hasc Hg).
    + apply (report_inv_world T p); [reflexivity|reflexivity|exact Hrep].
  - apply (report_inv_world T p); [reflexivity|reflexivity|exact Hrep].
  - exact Hrep.
  - exact Hrep.
Qed.

Lemma run_report_inv (T : Z) (sched : list (nat * Q)) :
  forall p,
    pool_inv p ->
    Forall (fun t => total_all_threads t = T /\ (0 < total_of t -> 0 < T))
           (task <$> threads p) ->
    report_inv T p -> report_inv T (run BATCH_SIZE start_ts lib sched p).
Proof.
  induction sched as [|[tid now] sched IH]; intros p Hinv Hst Hrep; [exact Hrep|].
  cbn [run fold_left fst snd]. apply IH.
  - apply step_inv. exact Hinv.
  - rewrite step_tasks. exact Hst.
  - apply step_report_inv; assumption.
Qed.

(** In every state a pool started by [main] reaches, the snapshots
    printed so far satisfy the invariant and the counter has not passed
    [TOTAL_RECORDS]. *)
Lemma main_report_inv (T N : Z) (t0 : Q) (r : Rng) (p0 : Pool)
    (sched : list (nat * Q)) :
  main T N t0 r = Ok p0 ->
  report_inv T (run BATCH_SIZE start_ts lib sched p0) /\
  (0 <= T -> global_inserted (world (run BATCH_SIZE start_ts lib sched p0)) <= T).
Proof.
  intros Hm.
  pose proof (main_inv T N t0 r p0 Hm) as Hinv0.
  pose proof (main_threads_tasks T N t0 r p0 Hm) as Hmt.
  split.
  - apply run_report_inv; [exact Hinv0| |].
    + exact (main_tasks_static T N t0 _ Hmt).
    + destruct (main_pool T N t0 r p0 Hm) as (tasks & _ & ->).
      split; [constructor|]. intros i j s1 s2 _ H1. discriminate H1.
  - intros HT.
    pose proof (run_inv BATCH_SIZE start_ts lib sched p0 Hinv0) as Hinv.
    pose proof (pool_inv_counter _ Hinv) as [_ Hc].
    pose proof (inv_threads _ Hinv) as Hth.
    set (p := run BATCH_SIZE start_ts lib sched p0) in *.
    assert (Hins : sumZ (inserted <$> threads p)
                   <= sumZ ((fun th => Z.max 0 (total_of (task th))) <$> threads p)).
    { apply sumZ_le_pointwise. eapply Forall_impl; [exact Hth|].
      intros th Hok. destruct Hok as (Hb & _). cbn beta. lia. }
    pose proof (run_tasks BATCH_SIZE start_ts lib sched p0) as Htasks.
    fold p in Htasks. rewrite <- Htasks in Hmt.
    destruct (rows_due_main T N t0 _ HT Hmt) as (pt & _ & _ & Hdue).
    unfold rows_due in Hdue. rewrite <- list_fmap_compose in Hdue.
    unfold compose in Hdue. lia.
Qed.

End Reports.

(* ===================================================================== *)
(** * The shared counter and the snapshots, under every schedule *)
(* ===================================================================== *)

(** C5 (amended).  Under every interleaving of the workers' actions, with
    the read and the write of line 154 taken as separate actions, no
    increment of [global_inserted] is lost: the counter plus the chunk
    sizes committed but not yet added equals the sum of the sizes of all
    committed batches.  Once every worker has returned the counter equals
    that sum, and the sum is [TOTAL_RECORDS] when
    [0 <= TOTAL_RECORDS < 2^53] and [THREADS < 2^53]. *)
Theorem global_inserted_no_lost_update
    (BATCH_SIZE start_ts : Z) (lib : Library) (T N : Z) (t0 : Q) (r : Rng)
    (p0 : Pool) (sched : list (nat * Q)) :
  main T N t0 r = Ok p0 ->
  let p := run BATCH_SIZE start_ts lib sched p0 in
  global_inserted (world p) + sumZ ((fun th => pending (pc th)) <$> threads p)
  = sumZ (batch_sizes (db (world p))) /\
  (all_returned p ->
   global_inserted (world p) = sumZ (batch_sizes (db (world p))) /\
   (0 <= T < 2 ^ 53 -> N < 2 ^ 53 -> global_inserted (world p) = T)).
Proof.
  intros Hm p.
  pose proof (run_inv BATCH_SIZE start_ts lib sched p0 (main_inv T N t0 r p0 Hm))
    as Hinv. fold p in Hinv.
  destruct Hinv as [_ _ _ Hc Hrows Hth].
  split; [rewrite Hc, Hrows; lia|].
  intros Hall. unfold all_returned in Hall.
  assert (Hboth : Forall (fun th =>
             inserted th = Z.max 0 (total_of (task th)) /\
             pending (pc th) = 0) (threads p)).
  { rewrite Forall_forall in Hall, Hth. apply Forall_forall. intros th Hin.
    destruct (Hall th Hin) as [ret Hret].
    destruct (Hth th Hin) as (_ & _ & _ & Hpc). rewrite Hret in Hpc.
    destruct Hpc as [_ Hi]. rewrite Hret. auto. }
  assert (Hpend : sumZ ((fun th => pending (pc th)) <$> threads p) = 0).
  { rewrite (sumZ_eq_pointwise (fun th => pending (pc th)) (fun _ => 0) (threads p))
      by (eapply Forall_impl; [exact Hboth|]; intros th Hb; apply Hb).
    apply sumZ_const_zero. reflexivity. }
  split; [rewrite Hc, Hrows, Hpend; lia|].
  intros HT HN. rewrite Hc, Hpend.
  rewrite (sumZ_eq_pointwise inserted
             (fun th => Z.max 0 (total_of (task th))) (threads p))
    by (eapply Forall_impl; [exact Hboth|]; intros th Hb; apply Hb).
  pose proof (run_tasks BATCH_SIZE start_ts lib sched p0) as Htasks.
  fold p in Htasks.
  pose proof (main_threads_tasks T N t0 r p0 Hm) as Hmt.
  rewrite <- Htasks in Hmt.
  pose proof (rows_due_total T N t0 _ HT HN Hmt) as Hdue.
  unfold rows_due in Hdue. rewrite <- list_fmap_compose in Hdue.
  unfold compose in Hdue. lia.
Qed.

Lemma global_inserted_no_lost_update_witness :
  main 5 2 0 sample_rng = Ok sample_pool /\
  let p := run 2 1000 sample_lib sample_full_sched sample_pool in
  global_inserted (world p) + sumZ ((fun th => pending (pc th)) <$> threads p)
  = sumZ (batch_sizes (db (world p))) /\
  (all_returned p ->
   global_inserted (world p) = sumZ (batch_sizes (db (world p))) /\
   (0 <= 5 < 2 ^ 53 -> 2 < 2 ^ 53 -> global_inserted (world p) = 5)).
Proof.
  split; [reflexivity|].
  apply (global_inserted_no_lost_update 2 1000 sample_lib 5 2 0 sample_rng
           sample_pool sample_full_sched). reflexivity.
Defined.

(** C5 as stated fails where the rows submitted do not add up to
    [TOTAL_RECORDS].  With [TOTAL_RECORDS = -5] and two threads both
    ranges are empty: every worker returns and the counter stays at 0.
    With [TOTAL_RECORDS = 2^53 + 1] and two threads [per_thread] is
    [2^52], and when every worker has returned the counter reads
    [2^53]. *)
Lemma global_inserted_not_total_records :
  (exists p0,
     main (-5) 2 0 sample_rng = Ok p0 /\
     let p := run 2 1000 sample_lib [(0%nat, 1%Q); (1%nat, 1%Q)] p0 in
     all_returned p /\
     global_inserted (world p) = 0 /\
     sumZ (batch_sizes (db (world p))) = 0 /\
     global_inserted (world p) <> -5) /\
  (exists p0 sched,
     main (2 ^ 53 + 1) 2 0 sample_rng = Ok p0 /\
     let p := run (2 ^ 52) 1000 sample_lib sched p0 in
     all_returned p /\
     global_inserted (world p) = 2 ^ 53 /\
     sumZ (batch_sizes (db (world p))) = 2 ^ 53 /\
     global_inserted (world p) <> 2 ^ 53 + 1).
Proof.
  split.
  - eexists. split; [vm_compute; reflexivity|].
    cbv zeta. split; [|split; [|split]].
    + unfold all_returned.
      repeat constructor; eexists; vm_compute; reflexivity.
    + vm_compute. reflexivity.
    + vm_compute. reflexivity.
    + vm_compute. discriminate.
  - assert (Hmain : exists p0, main (2 ^ 53 + 1) 2 0 sample_rng = Ok p0).
    { eexists. vm_compute. reflexivity. }
    destruct Hmain as [p0 Hm].
    pose proof (main_inv _ _ _ _ _ Hm) as Hinv0.
    assert (HB : 1 <= 2 ^ 52) by (vm_compute; discriminate).
    destruct (can_finish (2 ^ 52) 1000 sample_lib _ HB p0 Hinv0 (le_n _))
      as [sched Hfin].
    exists p0, sched. split; [exact Hm|]. cbv zeta.
    pose proof (run_inv (2 ^ 52) 1000 sample_lib sched p0 Hinv0) as Hinv.
    set (p := run (2 ^ 52) 1000 sample_lib sched p0) in *.
    destruct Hinv as [_ _ _ Hc Hrows Hth].
    assert (Hboth : Forall (fun th =>
               (exists ret, pc th = Returned ret) /\
               inserted th = Z.max 0 (total_of (task th)) /\
               pending (pc th) = 0) (threads p)).
    { rewrite Forall_forall in Hfin, Hth. apply Forall_forall. intros th Hin.
      specialize (Hfin th Hin). destruct (Hth th Hin) as (_ & _ & _ & Hpc).
      destruct (pc th); cbn [finished] in Hfin; try tauto.
      destruct Hpc as [_ Hi]. cbn [pending]. eauto. }
    assert (Hpend : sumZ ((fun th => pending (pc th)) <$> threads p) = 0).
    { rewrite (sumZ_eq_pointwise (fun th => pending (pc th)) (fun _ => 0)
                 (threads p))
        by (eapply Forall_impl; [exact Hboth|]; intros th Hb; apply Hb).
      apply sumZ_const_zero. reflexivity. }
    assert (Hsum : sumZ (inserted <$> threads p) = 2 ^ 53).
    { rewrite (sumZ_eq_pointwise inserted
                 (fun th => Z.max 0 (total_of (task th))) (threads p))
        by (eapply Forall_impl; [exact Hboth|]; intros th Hb; apply Hb).
      pose proof (run_tasks (2 ^ 52) 1000 sample_lib sched p0) as Htasks.
      fold p in Htasks.
      assert (E : (fun th => Z.max 0 (total_of (task th))) <$> threads p
                  = (fun t => Z.max 0 (total_of t)) <$> (task <$> threads p))
        by (rewrite <- list_fmap_compose; reflexivity).
      rewrite E, Htasks. clear E.
      destruct (main_pool _ _ _ _ _ Hm) as (tasks & Ht & Ep0).
      rewrite Ep0. cbn [threads].
      assert (Etasks : tasks = [mkTask 1 0 (2 ^ 52) (2 ^ 53 + 1) 0;
                                mkTask 2 (2 ^ 52) (2 ^ 53) (2 ^ 53 + 1) 0]).
      { assert (E : main_tasks (2 ^ 53 + 1) 2 0
                    = Ok [mkTask 1 0 (2 ^ 52) (2 ^ 53 + 1) 0;
                          mkTask 2 (2 ^ 52) (2 ^ 53) (2 ^ 53 + 1) 0])
          by (vm_compute; reflexivity).
        congruence. }
      rewrite Etasks. vm_compute. reflexivity. }
    split; [eapply Forall_impl; [exact Hboth|]; intros th Hb; apply Hb|].
    split; [lia|]. split; [lia|].
    rewrite Hc, Hpend, Hsum. vm_compute. discriminate.
Qed.



(** C7.  In the order the snapshots of a run started by [main] were
    printed, under every schedule, a later snapshot never shows a smaller
    counter, all show [TOTAL_RECORDS] as the total, and so the
    percentage never goes down: neither its exact value nor the double
    line 155 computes from the counter and the total, which is finite. *)
Theorem snapshots_percent_monotone
    (BATCH_SIZE start_ts : Z) (lib : Library) (T N : Z) (t0 : Q) (r : Rng)
    (p0 : Pool) (sched : list (nat * Q)) (i j : nat) (s1 s2 : Snapshot) :
  main T N t0 r = Ok p0 ->
  let out := snapshots (stdout (world (run BATCH_SIZE start_ts lib sched p0))) in
  (i <= j)%nat -> out !! i = Some s1 -> out !! j = Some s2 ->
  snap_total s1 = T /\ snap_total s2 = T /\
  snap_global_inserted s1 <= snap_global_inserted s2 /\
  (snap_percent s1 <= snap_percent s2)%Q /\
  exists f1 f2,
    binary64_percent (snap_global_inserted s1) (snap_total s1) = Ok (Finite f1) /\
    binary64_percent (snap_global_inserted s2) (snap_total s2) = Ok (Finite f2) /\
    (f1 <= f2)%Q.
Proof.
  intros Hm out Hij H1 H2.
  destruct (main_report_inv BATCH_SIZE start_ts lib T N t0 r p0 sched Hm)
    as [[Hall Hasc] Hle].
  fold out in Hall, Hasc.
  pose proof (Hasc i j s1 s2 Hij H1 H2) as H12.
  rewrite Forall_lookup in Hall.
  destruct (Hall i s1 H1) as (HT & Ht1 & Hg1 & w1 & a1 & n1 & Hs1).
  destruct (Hall j s2 H2) as (_ & Ht2 & Hg2 & w2 & a2 & n2 & Hs2).
  specialize (Hle ltac:(lia)).
  destruct (progress_snapshot_fields w1 _ T a1 n1 s1 Hs1 ltac:(lia) HT)
    as (_ & _ & Hp1 & _).
  destruct (progress_snapshot_fields w2 _ T a2 n2 s2 Hs2 ltac:(lia) HT)
    as (_ & _ & Hp2 & _).
  split; [exact Ht1|]. split; [exact Ht2|]. split; [exact H12|].
  split.
  - rewrite Hp1, Hp2.
    apply Qmult_le_compat_r; [|discriminate].
    unfold Qdiv. apply Qmult_le_compat_r.
    + rewrite <- Zle_Qle. exact H12.
    + apply Qinv_le_0_compat.
      change (inject_Z 0 <= inject_Z T)%Q. rewrite <- Zle_Qle. lia.
  - rewrite Ht1, Ht2.
    destruct (binary64_percent_mono (snap_global_inserted s1)
                (snap_global_inserted s2) T ltac:(lia) ltac:(lia) HT)
      as (f1 & f2 & E1 & E2 & _ & Hf).
    exists f1, f2. auto.
Qed.

Lemma snapshots_percent_monotone_witness :
  main 5 2 0 sample_rng = Ok sample_pool /\
  let out := snapshots (stdout (world (run 2 1000 sample_lib sample_full_sched
                                            sample_pool))) in
  (0 <= 2)%nat /\
  exists s1 s2,
    out !! 0%nat = Some s1 /\ out !! 2%nat = Some s2 /\
    snap_total s1 = 5 /\ snap_total s2 = 5 /\
    snap_global_inserted s1 <= snap_global_inserted s2 /\
    (snap_percent s1 <= snap_percent s2)%Q /\
    exists f1 f2,
      binary64_percent (snap_global_inserted s1) (snap_total s1) = Ok (Finite f1) /\
      binary64_percent (snap_global_inserted s2) (snap_total s2) = Ok (Finite f2) /\
      (f1 <= f2)%Q.
Proof.
  split; [reflexivity|]. cbv zeta. split; [lia|].
  eexists. eexists.
  split; [vm_compute; reflexivity|]. split; [vm_compute; reflexivity|].
  eapply (snapshots_percent_monotone 2 1000 sample_lib 5 2 0 sample_rng
            sample_pool sample_full_sched 0%nat 2%nat);
    [reflexivity|lia|vm_compute; reflexivity|vm_compute; reflexivity].
Defined.

(** The sample run prints three snapshots; the doubles of line 155 are
    those the interpreter prints as 40.00, 60.00 and 100.00 percent. *)
Example sample_percentages :
  (snap_global_inserted <$>
     snapshots (stdout (world (run 2 1000 sample_lib sample_full_sched
                                  sample_pool)))) = [2; 3; 5] /\
  binary64_percent 2 5 = Ok (Finite (dyadic 5629499534213120 (-47))) /\
  binary64_percent 3 5 = Ok (Finite (dyadic 8444249301319680 (-47))) /\
  binary64_percent 5 5 = Ok (Finite (dyadic 7036874417766400 (-46))).
Proof. repeat split; vm_compute; reflexivity. Qed.
